(** * Matchmaking and chat relay server (server.js)

    A shallow embedding of the in-memory coordinator of [server.js]: the
    waiting queue, the room table, the client registry, the scorer
    [matchScore], the pairing step [tryMatch], [leaveRoom] and the
    message, close and timer handlers, followed by the properties of the
    specification that concern them.

    Modelling conventions.
    - A WebSocket object is identified by the order of its creation
      (a [nat]); [nextSocket] is the allocation counter of the server.
    - [ws.readyState] belongs to the transport: every handler reads it
      from an environment [readyState : Socket -> ReadyState] that is
      fixed during one handler run (handlers run to completion).
    - [Date.now()] is an integer number of milliseconds, read once per
      handler run ([now]); JavaScript numbers are idealised as the
      rationals [Q], so that [/ 1000], [/ 6] and [Math.min] are exact.
    - [crypto.randomBytes(8)] is an input of the handler ([entropy]); the
      identifier is its 16 digit hexadecimal rendering.
    - Outbound messages are appended to the log [sent], one
      [(socket, payload)] per successful [ws.send]. *)

From Stdlib Require Import Ascii String QArith Qminmax.
From stdpp Require Import gmap strings list fin_maps.

Local Open Scope Z_scope.
Local Open Scope string_scope.
Local Open Scope stdpp_scope.
Local Open Scope list_scope.

(** ** Data model *)

Abbreviation Socket := nat (only parsing).

Inductive ReadyState := CONNECTING | OPEN | CLOSING | CLOSED.

Definition isOpen (r : ReadyState) : bool :=
  match r with OPEN => true | _ => false end.

(** prefs: { gender, level } *)
Record Prefs := mkPrefs { gender : string; level : string }.

(** Waiting queue element: { ws, prefs, enqueuedAt } *)
Record Entry := mkEntry { q_ws : Socket; q_prefs : Prefs; enqueuedAt : Z }.

(** Active room: { a, b } *)
Record Room := mkRoom { room_a : Socket; room_b : Socket }.

(** Client record: { id, roomId, state, prefs }; [roomId = None] is [null]. *)
Record Meta := mkMeta {
  meta_id : string;
  roomId : option string;
  state : string;
  prefs : Prefs
}.

(** Outbound payloads, by their [type] field. *)
Inductive Payload :=
| msg_hello (id : string)
| msg_searching
| msg_canceled
| msg_matched (rid : string) (partner_name partner_badge : string)
| msg_chat (text : string)
| msg_partner_left
| msg_left.

(** The decoded inbound message, by its [type] field: [JSON.parse] may
    throw; optional fields are [None] when absent and are strings
    otherwise, as in the message schema.  (A payload that parses to [null]
    makes the callback throw on [msg.type]; it is not modelled.) *)
Inductive Request :=
| ReqUnparsable
| ReqFind (g l : option string)
| ReqCancel
| ReqChat (text : option string)
| ReqLeave
| ReqOther.

Record Server := mkServer {
  queue : list Entry;
  rooms : gmap string Room;
  clients : gmap Socket Meta;
  sent : list (Socket * Payload);
  nextSocket : nat
}.

Definition init : Server := mkServer [] ∅ ∅ [] 0.

Definition set_queue (q : list Entry) (s : Server) : Server :=
  mkServer q (rooms s) (clients s) (sent s) (nextSocket s).
Definition set_rooms (r : gmap string Room) (s : Server) : Server :=
  mkServer (queue s) r (clients s) (sent s) (nextSocket s).
Definition set_clients (c : gmap Socket Meta) (s : Server) : Server :=
  mkServer (queue s) (rooms s) c (sent s) (nextSocket s).
Definition set_sent (o : list (Socket * Payload)) (s : Server) : Server :=
  mkServer (queue s) (rooms s) (clients s) o (nextSocket s).

(** In-place mutation of the client record of [w] (no effect when [w] has
    no record). *)
Definition mutate (f : Meta -> Meta) (w : Socket) (s : Server) : Server :=
  set_clients (alter f w (clients s)) s.

(** [meta.roomId = null; meta.state = "idle"] *)
Definition reset (m : Meta) : Meta :=
  mkMeta (meta_id m) None "idle" (prefs m).

(** [meta.roomId = roomId; meta.state = "chat"] *)
Definition enter (rid : string) (m : Meta) : Meta :=
  mkMeta (meta_id m) (Some rid) "chat" (prefs m).

(** [meta.state = st] *)
Definition set_state (st : string) (m : Meta) : Meta :=
  mkMeta (meta_id m) (roomId m) st (prefs m).

(** [meta.prefs = p; meta.state = "searching"] *)
Definition search (p : Prefs) (m : Meta) : Meta :=
  mkMeta (meta_id m) (roomId m) "searching" p.

(** ** JavaScript helpers *)

(** [x || d] on an optional string: absent and empty are falsy. *)
Definition or_default (x : option string) (d : string) : string :=
  match x with
  | Some (String c r) => String c r
  | _ => d
  end.

(** [x || d] on a string. *)
Definition str_or (x d : string) : string :=
  match x with
  | String _ _ => x
  | EmptyString => d
  end.

(** Truthiness of [meta.roomId]. *)
Definition truthy (x : option string) : bool :=
  match x with
  | Some (String _ _) => true
  | _ => false
  end.

Definition hexdigit (d : N) : ascii :=
  match d with
  | 0%N => "0" | 1%N => "1" | 2%N => "2" | 3%N => "3"
  | 4%N => "4" | 5%N => "5" | 6%N => "6" | 7%N => "7"
  | 8%N => "8" | 9%N => "9" | 10%N => "a" | 11%N => "b"
  | 12%N => "c" | 13%N => "d" | 14%N => "e" | _ => "f"
  end%char.

Fixpoint hex (k : nat) (n : N) (acc : string) : string :=
  match k with
  | O => acc
  | S k' => hex k' (n / 16)%N (String (hexdigit (n mod 16)%N) acc)
  end.

(** [crypto.randomBytes(8).toString("hex")] *)
Definition uid (entropy : N) : string :=
  hex 16 (entropy mod 2 ^ 64)%N "".

(** [Array.prototype.findIndex]; [None] is [-1]. *)
Fixpoint findIndex {A : Type} (p : A -> bool) (l : list A) : option nat :=
  match l with
  | [] => None
  | x :: r => if p x then Some O else S <$> findIndex p r
  end.

(** [arr.splice(i, 1)]: out of range it removes nothing. *)
Definition splice {A : Type} (i : nat) (l : list A) : list A := delete i l.

(** ** The handlers, for a fixed transport status *)

Section Handlers.

Variable readyState : Socket -> ReadyState.

Definition safeSend (w : Socket) (p : Payload) (s : Server) : Server :=
  if isOpen (readyState w) then set_sent (sent s ++ [(w, p)]) s else s.

Definition removeFromQueue (w : Socket) (s : Server) : Server :=
  match findIndex (fun q => bool_decide (q_ws q = w)) (queue s) with
  | Some idx => set_queue (splice idx (queue s)) s
  | None => s
  end.

Definition partner (room : Room) (w : Socket) : Socket :=
  if decide (room_a room = w) then room_b room else room_a room.

Definition leaveRoom (w : Socket) (s : Server) : Server :=
  match clients s !! w with
  | None => s
  | Some meta =>
    if negb (truthy (roomId meta)) then s else
    match rooms s !! default "" (roomId meta) with
    | None => mutate reset w s
    | Some room =>
      let other := partner room w in
      let s1 :=
        if isOpen (readyState other)
        then safeSend other msg_partner_left (mutate reset other s)
        else s in
      let s2 := set_rooms (delete (default "" (roomId meta)) (rooms s1)) s1 in
      mutate reset w s2
    end
  end.

(** [matchScore]: the score is accumulated in the order of the source. *)
Definition matchScore (p1 p2 : Prefs) : Z :=
  let g1 := str_or (gender p1) "any" in
  let g2 := str_or (gender p2) "any" in
  let l1 := str_or (level p1) "any" in
  let l2 := str_or (level p2) "any" in
  let score := 0 in
  let score := if bool_decide (g1 = g2) then score + 2 else score in
  let score := if bool_decide (l1 = l2) then score + 4 else score in
  let score :=
    if bool_decide (l1 = "any") || bool_decide (l2 = "any")
    then score + 1 else score in
  let score :=
    if bool_decide (g1 = "any") || bool_decide (g2 = "any")
    then score + 1 else score in
  score.

(** The running best of the scan: [{ i, j, total }]. *)
Record Best := mkBest { best_i : nat; best_j : nat; total : Q }.

Definition waitSeconds (now : Z) (e : Entry) : Q :=
  (inject_Z (now - enqueuedAt e) / 1000)%Q.

Definition waitingBonus (now : Z) (A B : Entry) : Q :=
  Qmin 10 ((waitSeconds now A + waitSeconds now B) / 6)%Q.

Definition pairTotal (now : Z) (A B : Entry) : Q :=
  (inject_Z (matchScore (q_prefs A) (q_prefs B)) + waitingBonus now A B)%Q.

(** [total > best.total] *)
Definition Qgtb (x y : Q) : bool := negb (Qle_bool x y).

(** Body of the inner loop for the indices [i], [j].  [matchScore] returns
    an integer, so the [isFinite] test never skips a pair. *)
Definition consider (now : Z) (q : list Entry) (best : option Best)
    (i j : nat) : option Best :=
  match q !! i, q !! j with
  | Some A, Some B =>
    if negb (isOpen (readyState (q_ws A))) || negb (isOpen (readyState (q_ws B)))
    then best
    else
      let t := pairTotal now A B in
      match best with
      | None => Some (mkBest i j t)
      | Some b => if Qgtb t (total b) then Some (mkBest i j t) else best
      end
  | _, _ => best
  end.

(** [for (j = i + 1; j < queue.length; j++)] *)
Definition innerLoop (now : Z) (q : list Entry) (best : option Best)
    (i : nat) : option Best :=
  foldl (fun acc j => consider now q acc i j) best
        (seq (S i) (length q - S i)).

(** [for (i = 0; i < queue.length; i++)] *)
Definition scan (now : Z) (q : list Entry) : option Best :=
  foldl (innerLoop now q) None (seq 0 (length q)).

Definition partnerName := "Partner".
Definition partnerBadge := "Online".

Definition tryMatch (now : Z) (entropy : N) (s : Server) : Server :=
  if decide (length (queue s) < 2)%nat then s else
  match scan now (queue s) with
  | None => s
  | Some best =>
    match queue s !! best_i best, queue s !! best_j best with
    | Some A, Some B =>
      let s1 := set_queue (splice (best_i best) (splice (best_j best) (queue s))) s in
      let rid := uid entropy in
      let s2 := set_rooms (<[rid := mkRoom (q_ws A) (q_ws B)]> (rooms s1)) s1 in
      let s3 := mutate (enter rid) (q_ws A) s2 in
      let s4 := mutate (enter rid) (q_ws B) s3 in
      let s5 := safeSend (q_ws A) (msg_matched rid partnerName partnerBadge) s4 in
      safeSend (q_ws B) (msg_matched rid partnerName partnerBadge) s5
    | _, _ => s
    end
  end.

(** Body of the cleaning loop of the timer callback, at index [i]. *)
Definition purgeAt (q : list Entry) (i : nat) : list Entry :=
  match q !! i with
  | Some e => if isOpen (readyState (q_ws e)) then q else splice i q
  | None => q
  end.

(** [for (i = queue.length - 1; i >= 0; i--)] *)
Definition purge (s : Server) : Server :=
  set_queue (foldl purgeAt (queue s) (rev (seq 0 (length (queue s))))) s.

Definition onTick (now : Z) (entropy : N) (s : Server) : Server :=
  tryMatch now entropy (purge s).

Definition onConnection (entropy : N) (s : Server) : Server :=
  let w := nextSocket s in
  let id := uid entropy in
  let s0 := mkServer (queue s) (rooms s) (clients s) (sent s) (S (nextSocket s)) in
  let meta := mkMeta id None "idle" (mkPrefs "any" "any") in
  let s1 := set_clients (<[w := meta]> (clients s0)) s0 in
  safeSend w (msg_hello id) s1.

(** The [find] branch up to the call of [tryMatch]: leave any room, remove
    from the queue, then enqueue. *)
Definition enqueue (w : Socket) (g l : option string) (now : Z)
    (s : Server) : Server :=
  let s1 := leaveRoom w s in
  let s2 := removeFromQueue w s1 in
  let p := mkPrefs (or_default g "any") (or_default l "any") in
  let s3 := mutate (search p) w s2 in
  let s4 := set_queue (queue s3 ++ [mkEntry w p now]) s3 in
  safeSend w msg_searching s4.

Definition onFind (w : Socket) (g l : option string) (now : Z) (entropy : N)
    (s : Server) : Server :=
  tryMatch now entropy (enqueue w g l now s).

Definition onCancel (w : Socket) (s : Server) : Server :=
  let s1 := removeFromQueue w s in
  let s2 := mutate (set_state "idle") w s1 in
  safeSend w msg_canceled s2.

Definition onChat (w : Socket) (text : option string) (s : Server) : Server :=
  match clients s !! w with
  | None => s
  | Some meta =>
    if negb (truthy (roomId meta)) then s else
    match rooms s !! default "" (roomId meta) with
    | None => s
    | Some room =>
      let other := partner room w in
      if negb (isOpen (readyState other))
      then leaveRoom w (safeSend w msg_partner_left s)
      else safeSend other (msg_chat (or_default text "")) s
    end
  end.

Definition onLeave (w : Socket) (s : Server) : Server :=
  let s1 := leaveRoom w s in
  let s2 := removeFromQueue w s1 in
  let s3 := mutate (set_state "idle") w s2 in
  safeSend w msg_left s3.

Definition onMessage (w : Socket) (req : Request) (now : Z) (entropy : N)
    (s : Server) : Server :=
  match req with
  | ReqUnparsable => s
  | _ =>
    match clients s !! w with
    | None => s
    | Some _ =>
      match req with
      | ReqFind g l => onFind w g l now entropy s
      | ReqCancel => onCancel w s
      | ReqChat text => onChat w text s
      | ReqLeave => onLeave w s
      | _ => s
      end
    end
  end.

Definition onClose (w : Socket) (s : Server) : Server :=
  let s1 := removeFromQueue w s in
  let s2 := leaveRoom w s1 in
  set_clients (delete w (clients s2)) s2.

End Handlers.

(** ** Events and reachable states *)

(** One run of a callback of the server.  The transport status seen by the
    callback is chosen by the environment at every event. *)
Inductive Event :=
| EvConnection (entropy : N)
| EvMessage (w : Socket) (req : Request) (now : Z) (entropy : N)
| EvClose (w : Socket)
| EvTick (now : Z) (entropy : N).

Definition step (readyState : Socket -> ReadyState) (ev : Event)
    (s : Server) : Server :=
  match ev with
  | EvConnection entropy => onConnection readyState entropy s
  | EvMessage w req now entropy => onMessage readyState w req now entropy s
  | EvClose w => onClose readyState w s
  | EvTick now entropy => onTick readyState now entropy s
  end.

Inductive reachable : Server -> Prop :=
| reach_init : reachable init
| reach_step rs ev s : reachable s -> reachable (step rs ev s).

(** Running a list of events, oldest first. *)
Definition run (evs : list ((Socket -> ReadyState) * Event)) (s : Server) : Server :=
  foldl (fun acc e => step (fst e) (snd e) acc) s evs.

Definition allOpen : Socket -> ReadyState := fun _ => OPEN.
(** The socket [w] has started closing (its close callback has not run
    yet); all others are open. *)
Definition closingOnly (w : Socket) : Socket -> ReadyState :=
  fun x => if decide (x = w) then CLOSING else OPEN.

(** ** Predicates, relations and sample runs used by the statements *)

Local Close Scope Z_scope.

(** [before p p']: the index pair [p] is visited before [p'] by the two
    nested loops ([i] outer, [j] inner). *)
Definition before (p p' : nat * nat) : Prop :=
  fst p < fst p' \/ (fst p = fst p' /\ snd p < snd p').

(** The pair of positions [i], [j] holds the entries [A], [B] and both
    sockets are open: the pair is scored by the loop body. *)
Definition eligible (readyState : Socket -> ReadyState) (q : list Entry)
    (i j : nat) (A B : Entry) : Prop :=
  q !! i = Some A /\ q !! j = Some B /\
  isOpen (readyState (q_ws A)) = true /\ isOpen (readyState (q_ws B)) = true.

(** Loop invariant of the scan: [best] is the first maximum among the
    eligible pairs visited before [bound]. *)
Definition firstMax (readyState : Socket -> ReadyState) (now : Z)
    (q : list Entry) (best : option Best) (bound : nat * nat) : Prop :=
  match best with
  | None =>
    forall i j A B, i < j -> before (i, j) bound ->
      ~ eligible readyState q i j A B
  | Some b =>
    best_i b < best_j b /\ before (best_i b, best_j b) bound /\
    exists A B, eligible readyState q (best_i b) (best_j b) A B /\
      total b = pairTotal now A B /\
      forall i j A' B', i < j -> before (i, j) bound ->
        eligible readyState q i j A' B' ->
        (pairTotal now A' B' <= total b)%Q /\
        (before (i, j) (best_i b, best_j b) -> (pairTotal now A' B' < total b)%Q)
  end.

(** [w] is one of the two members of some room of the table. *)
Definition isMember (w : Socket) (s : Server) : Prop :=
  exists r room, rooms s !! r = Some room /\ (w = room_a room \/ w = room_b room).

(** [w] has an entry in the waiting queue. *)
Definition inPool (w : Socket) (s : Server) : Prop :=
  exists e, e ∈ queue s /\ q_ws e = w.

Definition validState (st : string) : Prop :=
  st = "idle" \/ st = "searching" \/ st = "chat".

Record Inv (s : Server) : Prop := mkInv {
  (* a socket has at most one queue entry *)
  inv_nodup : NoDup (q_ws <$> queue s);
  (* a queued socket is registered, searching, bound to no room, and the
     preference snapshot has no empty field *)
  inv_queue : forall e, e ∈ queue s ->
    gender (q_prefs e) <> "" /\ level (q_prefs e) <> "" /\
    exists m, clients s !! q_ws e = Some m /\
      state m = "searching" /\ truthy (roomId m) = false;
  (* a queued socket is in no room *)
  inv_excl : forall w, inPool w s -> ~ isMember w s;
  (* a room member is registered and its record points to the room *)
  inv_member : forall r room w, rooms s !! r = Some room ->
    w = room_a room \/ w = room_b room ->
    exists m, clients s !! w = Some m /\ roomId m = Some r;
  (* no room is stored under the empty identifier *)
  inv_rid : rooms s !! "" = None;
  (* the two members of a room differ *)
  inv_distinct : forall r room, rooms s !! r = Some room ->
    room_a room <> room_b room;
  inv_state : forall w m, clients s !! w = Some m -> validState (state m);
  (* registered sockets were allocated *)
  inv_fresh : forall w m, clients s !! w = Some m -> w < nextSocket s
}.

(** The three ways [leaveRoom] ends. *)
Inductive leaveRoomCase (rs : Socket -> ReadyState) (w : Socket)
    (s : Server) : Server -> Prop :=
| leave_nothing :
    (forall m, clients s !! w = Some m -> truthy (roomId m) = false) ->
    leaveRoomCase rs w s s
| leave_stale m rid :
    clients s !! w = Some m -> roomId m = Some rid -> rid <> "" ->
    rooms s !! rid = None ->
    leaveRoomCase rs w s (mutate reset w s)
| leave_room m rid room :
    clients s !! w = Some m -> roomId m = Some rid -> rid <> "" ->
    rooms s !! rid = Some room ->
    leaveRoomCase rs w s
      (mutate reset w
         (set_rooms (delete rid (rooms s))
            (if isOpen (rs (partner room w))
             then safeSend rs (partner room w) msg_partner_left
                    (mutate reset (partner room w) s)
             else s))).

(** The state after the entries [A] (position [i]) and [B] (position [j])
    were paired in the room [rid]. *)
Definition paired (rid : string) (i j : nat) (A B : Entry) (s : Server) : Server :=
  mkServer
    (splice i (splice j (queue s)))
    (<[rid := mkRoom (q_ws A) (q_ws B)]> (rooms s))
    (alter (enter rid) (q_ws B) (alter (enter rid) (q_ws A) (clients s)))
    (sent s ++ [(q_ws A, msg_matched rid partnerName partnerBadge);
                (q_ws B, msg_matched rid partnerName partnerBadge)])
    (nextSocket s).

(** The two ways [tryMatch] ends. *)
Inductive tryMatchCase (rs : Socket -> ReadyState) (now : Z) (entropy : N)
    (s : Server) : Server -> Prop :=
| match_none :
    length (queue s) < 2 \/ scan rs now (queue s) = None ->
    tryMatchCase rs now entropy s s
| match_pair b A B :
    2 <= length (queue s) ->
    scan rs now (queue s) = Some b ->
    best_i b < best_j b ->
    eligible rs (queue s) (best_i b) (best_j b) A B ->
    tryMatchCase rs now entropy s
      (paired (uid entropy) (best_i b) (best_j b) A B s).






(** A concrete run: two clients connect and the first one searches. *)
Definition demo_waiting : Server :=
  run [(allOpen, EvConnection 5%N);
       (allOpen, EvConnection 77%N);
       (allOpen, EvMessage 0 (ReqFind None None) 1000%Z 1%N)] init.

Definition demo_first : Entry := mkEntry 0 (mkPrefs "any" "any") 1000%Z.
Definition demo_second : Entry := mkEntry 1 (mkPrefs "female" "any") 4000%Z.

(** The state on which the [find] of the second client calls [tryMatch]. *)
Definition demo_invoked : Server :=
  enqueue allOpen 1 (Some "female") None 4000%Z demo_waiting.

Definition demo_plain : Entry := mkEntry 1 (mkPrefs "any" "any") 2000%Z.

(** The state on which [tryMatch] runs when the second client also
    searches without preferences, one second after the first. *)
Definition demo_invoked_plain : Server :=
  enqueue allOpen 1 None None 2000%Z demo_waiting.

(** The state after both clients of the concrete run were paired. *)
Definition demo_chatting : Server :=
  step allOpen (EvMessage 1 (ReqFind None None) 2000%Z 255%N) demo_waiting.

(** An idle client: connected, never searched. *)
Definition demo_idle : Server := run [(allOpen, EvConnection 5%N)] init.

(** [appendsToOpen rs s s']: the log of [s'] is the log of [s] followed by
    messages that are all addressed to sockets open under [rs]. *)
Definition appendsToOpen (rs : Socket -> ReadyState) (s s' : Server) : Prop :=
  exists new, sent s' = sent s ++ new /\
    Forall (fun x => isOpen (rs (fst x)) = true) new.

(** A second invariant: the queue holds the current preferences of its
    sockets, and the identifiers in use have the 16 characters of [uid]. *)
Record Snapshot (s : Server) : Prop := mkSnapshot {
  (* the preference snapshot of an entry is the record's preference pair *)
  snap_prefs : forall e, e ∈ queue s ->
    exists m, clients s !! q_ws e = Some m /\ prefs m = q_prefs e;
  (* a room reference in a record is an identifier made by [uid] *)
  snap_roomId : forall w m rid, clients s !! w = Some m ->
    roomId m = Some rid -> String.length rid = 16;
  snap_rooms : forall rid room, rooms s !! rid = Some room ->
    String.length rid = 16;
  snap_id : forall w m, clients s !! w = Some m ->
    String.length (meta_id m) = 16
}.

(** [reachableUnder rs s]: [s] is reached by a run whose last callback saw
    the transport status [rs], in an environment where a queued socket
    never opens again: a socket of the queue that is open during a
    callback was open during the previous one. *)
Inductive reachableUnder : (Socket -> ReadyState) -> Server -> Prop :=
| under_init rs : reachableUnder rs init
| under_step rs rs' ev s :
    reachableUnder rs s ->
    (forall e, e ∈ queue s -> isOpen (rs' (q_ws e)) = true ->
       isOpen (rs (q_ws e)) = true) ->
    reachableUnder rs' (step rs' ev s).

(** ** Facts about the helpers *)

Lemma hex_length k n acc :
  String.length (hex k n acc) = (k + String.length acc)%nat.
Proof.
  revert n acc. induction k as [|k IH]; intros n acc; simpl; [done|].
  rewrite IH. simpl. lia.
Qed.

Lemma uid_length entropy : String.length (uid entropy) = 16%nat.
Proof. unfold uid. by rewrite hex_length. Qed.

Lemma uid_nonempty entropy : uid entropy ≠ "".
Proof.
  intros H. pose proof (uid_length entropy) as L. rewrite H in L. discriminate.
Qed.

Lemma truthy_uid entropy : truthy (Some (uid entropy)) = true.
Proof.
  pose proof (uid_nonempty entropy) as H.
  destruct (uid entropy); [done|reflexivity].
Qed.

Lemma truthy_Some_inv x :
  truthy x = true -> exists r, x = Some r /\ r <> "".
Proof. destruct x as [[|c r]|]; simpl; try discriminate. eauto. Qed.

Lemma or_default_nonempty x d : d <> "" -> or_default x d <> "".
Proof. destruct x as [[|c r]|]; simpl; auto; discriminate. Qed.


Lemma findIndex_Some {A} (p : A -> bool) l i :
  findIndex p l = Some i ->
  exists x, l !! i = Some x /\ p x = true.
Proof.
  revert i. induction l as [|y l IH]; intros i; simpl; [discriminate|].
  destruct (p y) eqn:Hp.
  - intros [= <-]. eauto.
  - destruct (findIndex p l) as [k|]; simpl; [|discriminate].
    intros [= <-]. destruct (IH k eq_refl) as (x & ? & ?). eauto.
Qed.

Lemma findIndex_first {A} (p : A -> bool) l i j y :
  findIndex p l = Some i -> (j < i)%nat -> l !! j = Some y -> p y = false.
Proof.
  revert i j. induction l as [|z l IH]; intros i j; simpl; [discriminate|].
  destruct (p z) eqn:Hp.
  - intros [= <-] ?. lia.
  - destruct (findIndex p l) as [k|] eqn:E; simpl; [|discriminate].
    intros [= <-] Hj. destruct j as [|j]; simpl.
    + congruence.
    + apply (IH k); [done|lia].
Qed.

Lemma findIndex_None {A} (p : A -> bool) l x :
  findIndex p l = None -> x ∈ l -> p x = false.
Proof.
  induction l as [|y l IH]; simpl; intros Hn Hx.
  - by apply elem_of_nil in Hx.
  - destruct (p y) eqn:Hp; [discriminate|].
    destruct (findIndex p l); [discriminate|].
    apply elem_of_cons in Hx as [->|Hx]; auto.
Qed.

Lemma findIndex_is_None {A} (p : A -> bool) l :
  (forall x, x ∈ l -> p x = false) -> findIndex p l = None.
Proof.
  induction l as [|y l IH]; simpl; intros H; [done|].
  rewrite (H y) by (left; done). rewrite IH; [done|].
  intros x Hx. apply H. by right.
Qed.

Lemma splice_sublist {A} i (l : list A) : splice i l `sublist_of` l.
Proof. apply sublist_delete. Qed.

Lemma splice_elem_of {A} i (l : list A) x : x ∈ splice i l -> x ∈ l.
Proof. intros H. eapply elem_of_sublist; [done|apply splice_sublist]. Qed.

(** Removing position [i] from a list without repeated keys removes the
    key found there. *)
Lemma splice_key_gone {A B} (f : A -> B) (l : list A) i x y :
  NoDup (f <$> l) -> l !! i = Some x -> y ∈ splice i l -> f y <> f x.
Proof.
  intros Hnd Hi Hy. unfold splice in Hy.
  rewrite delete_take_drop in Hy.
  rewrite <- (take_drop_middle l i x Hi) in Hnd.
  rewrite fmap_app, fmap_cons in Hnd.
  apply NoDup_app in Hnd as (_ & Hdisj & Hnd).
  apply NoDup_cons in Hnd as [Hx _].
  apply elem_of_app in Hy as [Hy|Hy]; intros Heq.
  - apply (Hdisj (f y)); [by apply list_elem_of_fmap_2|]. rewrite Heq. by left.
  - apply Hx. rewrite <- Heq. by apply list_elem_of_fmap_2.
Qed.

Lemma splice_length {A} i (l : list A) x :
  l !! i = Some x -> length (splice i l) = (length l - 1)%nat.
Proof.
  intros H. unfold splice. rewrite length_delete; [done|]. eauto.
Qed.

(** ** The scan of [tryMatch] *)

Lemma Qgtb_true x y : Qgtb x y = true <-> (y < x)%Q.
Proof.
  unfold Qgtb. rewrite negb_true_iff, <- not_true_iff_false, Qle_bool_iff.
  split; [apply Qnot_le_lt|apply Qlt_not_le].
Qed.

Lemma Qgtb_false x y : Qgtb x y = false <-> (x <= y)%Q.
Proof. unfold Qgtb. by rewrite negb_false_iff, Qle_bool_iff. Qed.

Section ScanFacts.

Variable readyState : Socket -> ReadyState.
Variable now : Z.
Variable q : list Entry.

Lemma eligible_lt i j A B :
  eligible readyState q i j A B -> i < length q /\ j < length q.
Proof. intros (Hi & Hj & _). split; eapply lookup_lt_Some; eauto. Qed.

Lemma consider_eligible best i j A B :
  eligible readyState q i j A B ->
  consider readyState now q best i j =
  match best with
  | None => Some (mkBest i j (pairTotal now A B))
  | Some b =>
    if Qgtb (pairTotal now A B) (total b)
    then Some (mkBest i j (pairTotal now A B)) else best
  end.
Proof.
  intros (Hi & Hj & HA & HB). unfold consider. by rewrite Hi, Hj, HA, HB.
Qed.

Lemma consider_skip best i j :
  (forall A B, ~ eligible readyState q i j A B) ->
  consider readyState now q best i j = best.
Proof.
  intros H. unfold consider.
  destruct (q !! i) as [A|] eqn:Hi; [|done].
  destruct (q !! j) as [B|] eqn:Hj; [|done].
  destruct (isOpen (readyState (q_ws A))) eqn:HA; [|done].
  destruct (isOpen (readyState (q_ws B))) eqn:HB; [|done].
  destruct (H A B). by repeat split.
Qed.

Lemma before_next i j i' j' :
  before (i', j') (i, S j) <-> before (i', j') (i, j) \/ (i' = i /\ j' = j).
Proof. unfold before; simpl. lia. Qed.

Lemma eligible_dec i j :
  (exists A B, eligible readyState q i j A B) \/
  (forall A B, ~ eligible readyState q i j A B).
Proof.
  unfold eligible.
  destruct (q !! i) as [A|]; [|right; intros A B (? & _); congruence].
  destruct (q !! j) as [B|]; [|right; intros ? ? (_ & ? & _); congruence].
  destruct (isOpen (readyState (q_ws A))) eqn:HA; cycle 1.
  { right. intros ? ? ([= <-] & _ & ? & _). congruence. }
  destruct (isOpen (readyState (q_ws B))) eqn:HB; cycle 1.
  { right. intros ? ? (_ & [= <-] & _ & ?). congruence. }
  left. by exists A, B.
Qed.

Lemma firstMax_skip best i j :
  (forall A B, ~ eligible readyState q i j A B) ->
  firstMax readyState now q best (i, j) -> firstMax readyState now q best (i, S j).
Proof.
  intros Hno HG. destruct best as [b|]; simpl in *.
  - destruct HG as (Hlt & Hb & A & B & He & Ht & Hmax).
    split; [done|]. split; [apply before_next; by left|].
    exists A, B. split; [done|]. split; [done|].
    intros i' j' A' B' Hlt' Hbf He'.
    apply before_next in Hbf as [Hbf|[-> ->]]; [by eapply Hmax|].
    by destruct (Hno A' B').
  - intros i' j' A' B' Hlt' Hbf He'.
    apply before_next in Hbf as [Hbf|[-> ->]]; [by eapply HG|].
    by destruct (Hno A' B').
Qed.

Lemma firstMax_step best i j :
  i < j -> firstMax readyState now q best (i, j) ->
  firstMax readyState now q (consider readyState now q best i j) (i, S j).
Proof.
  intros Hij HG.
  destruct (eligible_dec i j) as [(A & B & He)|Hno]; cycle 1.
  { rewrite consider_skip by eauto. apply firstMax_skip; eauto. }
  rewrite (consider_eligible _ _ _ _ _ He).
  assert (Hsame : forall A' B', eligible readyState q i j A' B' -> A' = A /\ B' = B).
  { destruct He as (E1 & E2 & _).
    intros A' B' (E1' & E2' & _). split; congruence. }
  destruct best as [b|]; simpl in *.
  - destruct HG as (Hlt & Hb & A0 & B0 & He0 & Ht & Hmax).
    destruct (Qgtb (pairTotal now A B) (total b)) eqn:Hcmp; simpl.
    + apply Qgtb_true in Hcmp.
      split; [done|]. split; [unfold before; simpl; lia|].
      exists A, B. split; [done|]. split; [done|].
      intros i' j' A' B' Hlt' Hbf He'.
      apply before_next in Hbf as [Hbf|[-> ->]].
      * destruct (Hmax i' j' A' B' Hlt' Hbf He') as [Hle _].
        split; [|intros _]; [apply Qlt_le_weak|]; eapply Qle_lt_trans; eauto.
      * destruct (Hsame _ _ He') as [-> ->].
        split; [apply Qle_refl|]. unfold before; simpl; lia.
    + apply Qgtb_false in Hcmp.
      split; [done|]. split; [apply before_next; by left|].
      exists A0, B0. split; [done|]. split; [done|].
      intros i' j' A' B' Hlt' Hbf He'.
      apply before_next in Hbf as [Hbf|[-> ->]]; [by eapply Hmax|].
      destruct (Hsame _ _ He') as [-> ->].
      split; [done|]. revert Hb. unfold before; simpl; lia.
  - split; [done|]. split; [unfold before; simpl; lia|].
    exists A, B. split; [done|]. split; [done|].
    intros i' j' A' B' Hlt' Hbf He'.
    apply before_next in Hbf as [Hbf|[-> ->]]; [by destruct (HG i' j' A' B')|].
    destruct (Hsame _ _ He') as [-> ->].
    split; [apply Qle_refl|]. unfold before; simpl; lia.
Qed.

Lemma firstMax_mono best bound bound' :
  (forall i j, i < j -> j < length q ->
     before (i, j) bound <-> before (i, j) bound') ->
  firstMax readyState now q best bound -> firstMax readyState now q best bound'.
Proof.
  intros Heq HG. destruct best as [b|]; simpl in *.
  - destruct HG as (Hlt & Hb & A & B & He & Ht & Hmax).
    pose proof (eligible_lt _ _ _ _ He) as [_ Hj].
    split; [done|]. split; [by apply Heq|].
    exists A, B. split; [done|]. split; [done|].
    intros i j A' B' Hij Hbf He'.
    pose proof (eligible_lt _ _ _ _ He') as [_ Hj'].
    apply (Hmax i j A' B' Hij); [by apply Heq|done].
  - intros i j A B Hij Hbf He.
    pose proof (eligible_lt _ _ _ _ He) as [_ Hj].
    apply (HG i j A B Hij); [|done]. by apply Heq.
Qed.

Lemma firstMax_row best i len j0 :
  i < j0 -> firstMax readyState now q best (i, j0) ->
  firstMax readyState now q (foldl (fun acc j => consider readyState now q acc i j) best
                  (seq j0 len)) (i, j0 + len).
Proof.
  revert best j0. induction len as [|len IH]; intros best j0 Hlt HG; simpl.
  - by rewrite Nat.add_0_r.
  - replace (j0 + S len) with (S j0 + len) by lia.
    apply IH; [lia|]. by apply firstMax_step.
Qed.

Lemma firstMax_innerLoop best i :
  firstMax readyState now q best (i, S i) ->
  firstMax readyState now q (innerLoop readyState now q best i) (S i, S (S i)).
Proof.
  intros HG. unfold innerLoop.
  eapply firstMax_mono; [|apply firstMax_row; [lia|exact HG]].
  intros i' j' Hij Hj. unfold before; simpl. lia.
Qed.

Lemma firstMax_outer best i0 len :
  firstMax readyState now q best (i0, S i0) ->
  firstMax readyState now q (foldl (innerLoop readyState now q) best (seq i0 len))
           (i0 + len, S (i0 + len)).
Proof.
  revert best i0. induction len as [|len IH]; intros best i0 HG; simpl.
  - by rewrite Nat.add_0_r.
  - replace (i0 + S len) with (S i0 + len) by lia.
    apply IH. by apply firstMax_innerLoop.
Qed.

Lemma firstMax_scan :
  firstMax readyState now q (scan readyState now q) (length q, S (length q)).
Proof.
  unfold scan. apply (firstMax_outer None 0 (length q)).
  intros i j A B Hij Hbf _. revert Hbf. unfold before; simpl. lia.
Qed.

Lemma scan_None i j A B :
  scan readyState now q = None -> i < j -> ~ eligible readyState q i j A B.
Proof.
  intros Hs Hij He. pose proof firstMax_scan as HG. rewrite Hs in HG.
  pose proof (eligible_lt _ _ _ _ He) as [Hi Hj].
  apply (HG i j A B Hij); [|done]. unfold before; simpl. lia.
Qed.

Lemma scan_Some b :
  scan readyState now q = Some b ->
  best_i b < best_j b /\
  exists A B, eligible readyState q (best_i b) (best_j b) A B /\
    total b = pairTotal now A B /\
    forall i j A' B', i < j -> eligible readyState q i j A' B' ->
      (pairTotal now A' B' <= total b)%Q /\
      (before (i, j) (best_i b, best_j b) -> (pairTotal now A' B' < total b)%Q).
Proof.
  intros Hs. pose proof firstMax_scan as HG. rewrite Hs in HG.
  destruct HG as (Hlt & Hb & A & B & He & Ht & Hmax).
  split; [done|]. exists A, B. split; [done|]. split; [done|].
  intros i j A' B' Hij He'.
  pose proof (eligible_lt _ _ _ _ He') as [Hi Hj].
  apply Hmax; [done| |done]. unfold before; simpl. lia.
Qed.

End ScanFacts.

(** ** The cleaning loop of the timer *)

Lemma purge_loop (rs : Socket -> ReadyState) (k : nat) (l : list Entry) :
  foldl (purgeAt rs) l (rev (seq 0 k)) =
  (filter (fun e => isOpen (rs (q_ws e)) = true) (take k l) ++ drop k l)%list.
Proof.
  revert l. induction k as [|k IH]; intros l.
  - simpl. by rewrite drop_0.
  - rewrite seq_S, rev_app_distr. simpl. rewrite IH. unfold purgeAt.
    destruct (l !! k) as [e|] eqn:Hk.
    + rewrite (take_S_r l k e Hk), filter_app.
      destruct (isOpen (rs (q_ws e))) eqn:Ho.
      * rewrite (drop_S l e k Hk).
        rewrite filter_cons_True, filter_nil by done.
        by rewrite <- app_assoc.
      * unfold splice. rewrite delete_take_drop.
        assert (Hlen : length (take k l) = k).
        { apply length_take_le. apply lookup_lt_Some in Hk. lia. }
        rewrite take_app_length' by done.
        rewrite drop_app_length' by done.
        rewrite filter_cons_False, filter_nil by congruence.
        by rewrite app_nil_r.
    + apply lookup_ge_None in Hk.
      rewrite !take_ge, !drop_ge by lia. done.
Qed.

Lemma purge_queue rs s :
  queue (purge rs s) =
  filter (fun e => isOpen (rs (q_ws e)) = true) (queue s).
Proof.
  unfold purge. simpl. rewrite purge_loop.
  by rewrite take_ge, drop_ge, app_nil_r by lia.
Qed.

(** ** The invariant of the server state *)

Lemma Inv_init : Inv init.
Proof.
  split; simpl.
  - constructor.
  - intros e H. by apply elem_of_nil in H.
  - intros w (e & H & _). by apply elem_of_nil in H.
  - intros r room w H. by rewrite lookup_empty in H.
  - apply lookup_empty.
  - intros r room H. by rewrite lookup_empty in H.
  - intros w m H. by rewrite lookup_empty in H.
  - intros w m H. by rewrite lookup_empty in H.
Qed.

(** The invariant does not mention the log of sent messages. *)
Lemma Inv_sent o s : Inv s -> Inv (set_sent o s).
Proof. intros [H1 H2 H3 H4 H5 Hd H6 H7]. by split. Qed.

Lemma Inv_safeSend rs w p s : Inv s -> Inv (safeSend rs w p s).
Proof.
  intros H. unfold safeSend. destruct (isOpen (rs w)); [|done].
  by apply Inv_sent.
Qed.

(** Dropping queue entries preserves the invariant. *)
Lemma Inv_sublist q s :
  q `sublist_of` queue s -> Inv s -> Inv (set_queue q s).
Proof.
  intros Hsub [H1 H2 H3 H4 H5 Hd H6 H7]. split; simpl; try done.
  - eapply sublist_NoDup; [exact H1|]. by apply fmap_sublist.
  - intros e He. apply H2. eapply elem_of_sublist; eauto.
  - intros w (e & He & Hw) Hm. apply (H3 w); [|done].
    exists e. split; [|done]. eapply elem_of_sublist; eauto.
Qed.

Lemma Inv_purge rs s : Inv s -> Inv (purge rs s).
Proof.
  intros H.
  assert (E : purge rs s = set_queue (queue (purge rs s)) s) by done.
  rewrite E, purge_queue. apply Inv_sublist; [|done]. apply sublist_filter.
Qed.

Lemma Inv_ext s s' :
  queue s = queue s' -> rooms s = rooms s' -> clients s = clients s' ->
  nextSocket s = nextSocket s' -> Inv s -> Inv s'.
Proof.
  destruct s, s'; simpl; intros -> -> -> -> [H1 H2 H3 H4 H5 Hd H6 H7].
  by split.
Qed.

Lemma Inv_delete_room rid s :
  Inv s -> Inv (set_rooms (delete rid (rooms s)) s).
Proof.
  intros [H1 H2 H3 H4 H5 Hd H6 H7]. split; simpl; try done.
  - intros w Hp (r & room & Hr & Hw). apply (H3 w Hp). simpl in Hr.
    apply lookup_delete_Some in Hr as [_ Hr]. by exists r, room.
  - intros r room w Hr Hw. apply lookup_delete_Some in Hr as [_ Hr]. eauto.
  - apply lookup_delete_None. by right.
  - intros r room Hr. apply lookup_delete_Some in Hr as [_ Hr]. eauto.
Qed.

(** Resetting the record of a socket that is neither queued nor in a room. *)
Lemma Inv_reset x s :
  Inv s -> ~ inPool x s -> ~ isMember x s -> Inv (mutate reset x s).
Proof.
  intros [H1 H2 H3 H4 H5 Hd H6 H7] Hp Hm. split; simpl; try done.
  - intros e He. destruct (H2 e He) as (Hg & Hl & m & Hc & Hs).
    split; [done|]. split; [done|]. exists m. split; [|done].
    rewrite lookup_alter_ne; [done|]. intros ->. apply Hp. by exists e.
  - intros r room w Hr Hw. destruct (H4 r room w Hr Hw) as (m & Hc & Hid).
    exists m. split; [|done]. rewrite lookup_alter_ne; [done|].
    intros ->. apply Hm. by exists r, room.
  - intros w m Hc. apply lookup_alter_Some in Hc as [(-> & m' & Hc & ->)|[_ Hc]].
    + by left.
    + eauto.
  - intros w m Hc. apply lookup_alter_Some in Hc as [(-> & m' & Hc & ->)|[_ Hc]];
      eauto.
Qed.

(** A socket whose record carries a room identifier is not queued. *)
Lemma truthy_not_inPool w m s :
  Inv s -> clients s !! w = Some m -> truthy (roomId m) = true -> ~ inPool w s.
Proof.
  intros HI Hc Ht (e & He & <-).
  destruct (inv_queue s HI e He) as (_ & _ & m' & Hc' & _ & Hf). congruence.
Qed.

Lemma member_roomId w r room m s :
  Inv s -> rooms s !! r = Some room -> w = room_a room \/ w = room_b room ->
  clients s !! w = Some m -> roomId m = Some r.
Proof.
  intros HI Hr Hw Hc. destruct (inv_member s HI r room w Hr Hw) as (m' & ? & ?).
  congruence.
Qed.

Lemma partner_member room w :
  partner room w = room_a room \/ partner room w = room_b room.
Proof. unfold partner. destruct (decide (room_a room = w)); auto. Qed.

(** *** removeFromQueue *)

Lemma removeFromQueue_fields w s :
  removeFromQueue w s = set_queue (queue (removeFromQueue w s)) s.
Proof.
  unfold removeFromQueue. destruct (findIndex _ _); [done|]. by destruct s.
Qed.

Lemma removeFromQueue_sublist w s :
  queue (removeFromQueue w s) `sublist_of` queue s.
Proof.
  unfold removeFromQueue. destruct (findIndex _ _); simpl; [|done].
  apply splice_sublist.
Qed.

Lemma Inv_removeFromQueue w s : Inv s -> Inv (removeFromQueue w s).
Proof.
  intros H. rewrite removeFromQueue_fields.
  apply Inv_sublist; [apply removeFromQueue_sublist|done].
Qed.

Lemma removeFromQueue_gone w s :
  NoDup (q_ws <$> queue s) -> ~ inPool w (removeFromQueue w s).
Proof.
  intros Hnd (e & He & Hw). unfold removeFromQueue in He.
  destruct (findIndex _ _) as [idx|] eqn:Hf; simpl in He.
  - apply findIndex_Some in Hf as (x & Hx & Hp).
    apply bool_decide_eq_true in Hp.
    apply (splice_key_gone q_ws _ _ x e Hnd Hx He). congruence.
  - pose proof (findIndex_None _ _ e Hf He) as Hp.
    by apply bool_decide_eq_false in Hp.
Qed.

Lemma removeFromQueue_absent w s :
  ~ inPool w s -> removeFromQueue w s = s.
Proof.
  intros Hp. unfold removeFromQueue. rewrite findIndex_is_None; [done|].
  intros x Hx. apply bool_decide_eq_false. intros Hw. apply Hp. by exists x.
Qed.

(** *** leaveRoom *)

Lemma leaveRoom_case rs w s : leaveRoomCase rs w s (leaveRoom rs w s).
Proof.
  unfold leaveRoom. destruct (clients s !! w) as [m|] eqn:Hc.
  - destruct (truthy (roomId m)) eqn:Ht; simpl.
    + destruct (truthy_Some_inv _ Ht) as (rid & Hrid & Hne).
      rewrite Hrid. simpl.
      destruct (rooms s !! rid) as [room|] eqn:Hr.
      * replace (rooms (if isOpen (rs (partner room w))
                        then safeSend rs (partner room w) msg_partner_left
                               (mutate reset (partner room w) s)
                        else s)) with (rooms s).
        -- by eapply leave_room.
        -- unfold safeSend. by repeat destruct (isOpen _).
      * by eapply leave_stale.
    + apply leave_nothing. intros m' Hm'. congruence.
  - apply leave_nothing. intros m' Hm'. congruence.
Qed.

Lemma leaveRoom_queue rs w s : queue (leaveRoom rs w s) = queue s.
Proof.
  destruct (leaveRoom_case rs w s); simpl; try done.
  unfold safeSend. by repeat destruct (isOpen _).
Qed.

Lemma leaveRoom_nextSocket rs w s :
  nextSocket (leaveRoom rs w s) = nextSocket s.
Proof.
  destruct (leaveRoom_case rs w s); simpl; try done.
  unfold safeSend. by repeat destruct (isOpen _).
Qed.

Lemma leaveRoom_registered rs w s x :
  is_Some (clients (leaveRoom rs w s) !! x) <-> is_Some (clients s !! x).
Proof.
  destruct (leaveRoom_case rs w s); simpl; try done.
  - by rewrite lookup_alter_is_Some.
  - rewrite lookup_alter_is_Some. unfold safeSend.
    repeat destruct (isOpen _); simpl; by rewrite ?lookup_alter_is_Some.
Qed.

(** After [leaveRoom] the record of the socket carries no room. *)
Lemma leaveRoom_roomId rs w s m :
  clients (leaveRoom rs w s) !! w = Some m -> truthy (roomId m) = false.
Proof.
  destruct (leaveRoom_case rs w s) as [Hf|? ? ? ? ? ?|? ? ? ? ? ? ?]; simpl.
  - apply Hf.
  - rewrite lookup_alter_eq. intros Hm.
    apply fmap_Some in Hm as (m' & _ & ->). done.
  - rewrite lookup_alter_eq. intros Hm.
    apply fmap_Some in Hm as (m' & _ & ->). done.
Qed.

Lemma Inv_leaveRoom rs w s : Inv s -> Inv (leaveRoom rs w s).
Proof.
  intros HI.
  destruct (leaveRoom_case rs w s) as [Hf|m rid Hc Hid Hne Hr|m rid room Hc Hid Hne Hr].
  - done.
  - assert (Ht : truthy (roomId m) = true).
    { rewrite Hid. by destruct rid. }
    apply Inv_reset; [done|by eapply truthy_not_inPool|].
    intros (r & room & Hr' & Hw).
    pose proof (member_roomId w r room m s HI Hr' Hw Hc). congruence.
  - assert (Ht : truthy (roomId m) = true).
    { rewrite Hid. by destruct rid. }
    set (other := partner room w).
    set (sd := set_rooms (delete rid (rooms s)) s).
    assert (HId : Inv sd) by by apply Inv_delete_room.
    assert (Hnm : forall x, x = w \/ x = other -> ~ isMember x sd).
    { intros x Hx (r & room' & Hr' & Hw). simpl in Hr'.
      apply lookup_delete_Some in Hr' as [Hrr Hr'].
      destruct (inv_member s HI r room' x Hr' Hw) as (mx & Hcx & Hidx).
      destruct Hx as [->| ->].
      - congruence.
      - destruct (inv_member s HI rid room other Hr (partner_member room w))
          as (mo & Hco & Hido). congruence. }
    assert (Hpw : ~ inPool w sd) by by eapply (truthy_not_inPool w m s).
    assert (Hpo : ~ inPool other sd).
    { intros Hp. apply (inv_excl s HI other Hp).
      exists rid, room. split; [done|]. apply partner_member. }
    destruct (isOpen (rs other)) eqn:Ho.
    + assert (HIo : Inv (mutate reset other sd)).
      { apply Inv_reset; auto. }
      assert (HIw : Inv (mutate reset w (mutate reset other sd))).
      { apply Inv_reset; [done|exact Hpw|exact (Hnm w (or_introl eq_refl))]. }
      revert HIw. apply Inv_ext; simpl; unfold safeSend;
        by destruct (isOpen (rs other)).
    + assert (HIw : Inv (mutate reset w sd)).
      { apply Inv_reset; auto. }
      revert HIw. by apply Inv_ext.
Qed.

(** After [leaveRoom] the socket is in no room of the table. *)
Lemma leaveRoom_notMember rs w s :
  Inv s -> ~ isMember w (leaveRoom rs w s).
Proof.
  intros HI (r & room' & Hr' & Hw).
  pose proof (Inv_leaveRoom rs w s HI) as HI'.
  destruct (inv_member _ HI' r room' w Hr' Hw) as (m & Hc & Hid).
  pose proof (leaveRoom_roomId rs w s m Hc) as Hf.
  rewrite Hid in Hf. destruct r; [|discriminate].
  rewrite (inv_rid _ HI') in Hr'. discriminate.
Qed.

(** *** tryMatch *)

Lemma tryMatch_case rs now entropy s :
  tryMatchCase rs now entropy s (tryMatch rs now entropy s).
Proof.
  unfold tryMatch. destruct (decide (length (queue s) < 2)) as [Hlen|Hlen].
  { apply match_none. by left. }
  destruct (scan rs now (queue s)) as [b|] eqn:Hs; cycle 1.
  { apply match_none. by right. }
  destruct (scan_Some rs now (queue s) b Hs) as (Hlt & A & B & He & _).
  pose proof He as (Hi & Hj & HA & HB). rewrite Hi, Hj.
  unfold safeSend. simpl. rewrite HA, HB. simpl.
  rewrite <- app_assoc. simpl.
  apply (match_pair rs now entropy s b A B); [lia|done..].
Qed.

Lemma paired_distinct i j A B (q : list Entry) :
  NoDup (q_ws <$> q) -> i < j -> q !! i = Some A -> q !! j = Some B ->
  q_ws A <> q_ws B.
Proof.
  intros Hnd Hlt Hi Hj Heq.
  assert (i = j); [|lia].
  apply (NoDup_lookup (q_ws <$> q) i j (q_ws A) Hnd);
    rewrite list_lookup_fmap; [by rewrite Hi|by rewrite Hj, Heq].
Qed.

(** What is left of the queue holds neither of the two paired sockets. *)
Lemma paired_rest i j A B (q : list Entry) e :
  NoDup (q_ws <$> q) -> i < j -> q !! i = Some A -> q !! j = Some B ->
  e ∈ splice i (splice j q) ->
  e ∈ q /\ q_ws e <> q_ws A /\ q_ws e <> q_ws B.
Proof.
  intros Hnd Hlt Hi Hj He.
  assert (He' : e ∈ splice j q) by by eapply splice_elem_of.
  split; [by eapply splice_elem_of|]. split.
  - apply (splice_key_gone q_ws (splice j q) i A e); [| |done].
    + eapply sublist_NoDup; [exact Hnd|]. apply fmap_sublist, splice_sublist.
    + unfold splice. by rewrite list_lookup_delete_lt.
  - by apply (splice_key_gone q_ws q j B e).
Qed.

Lemma paired_length i j A B (q : list Entry) :
  i < j -> q !! i = Some A -> q !! j = Some B ->
  length (splice i (splice j q)) + 2 = length q.
Proof.
  intros Hlt Hi Hj.
  assert (Hi' : splice j q !! i = Some A).
  { unfold splice. by rewrite list_lookup_delete_lt. }
  rewrite (splice_length i _ A Hi'), (splice_length j _ B Hj).
  apply lookup_lt_Some in Hi, Hj. lia.
Qed.

Lemma Inv_paired rid i j A B s :
  Inv s -> rid <> "" -> i < j ->
  queue s !! i = Some A -> queue s !! j = Some B ->
  Inv (paired rid i j A B s).
Proof.
  intros HI Hrid Hlt Hi Hj.
  pose proof (inv_nodup s HI) as Hnd.
  assert (HAB : q_ws A <> q_ws B) by by eapply paired_distinct.
  assert (HinA : A ∈ queue s) by by eapply list_elem_of_lookup_2.
  assert (HinB : B ∈ queue s) by by eapply list_elem_of_lookup_2.
  assert (Hrest : forall e, e ∈ queue (paired rid i j A B s) ->
            e ∈ queue s /\ q_ws e <> q_ws A /\ q_ws e <> q_ws B).
  { intros e He. by eapply paired_rest. }
  split; simpl.
  - eapply sublist_NoDup; [exact Hnd|]. apply fmap_sublist.
    etrans; apply splice_sublist.
  - intros e He. destruct (Hrest e He) as (Hin & HnA & HnB).
    destruct (inv_queue s HI e Hin) as (Hg & Hl & m & Hc & Hs).
    split; [done|]. split; [done|]. exists m. split; [|done].
    by rewrite !lookup_alter_ne.
  - intros w (e & He & <-) (r & room & Hr & Hw).
    destruct (Hrest e He) as (Hin & HnA & HnB). simpl in Hr.
    apply lookup_insert_Some in Hr as [[_ <-]|[_ Hr]]; simpl in Hw.
    + destruct Hw; congruence.
    + apply (inv_excl s HI (q_ws e)); [by exists e|by exists r, room].
  - intros r room w Hr Hw.
    apply lookup_insert_Some in Hr as [[<- <-]|[Hne Hr]]; simpl in Hw.
    + destruct Hw as [-> | ->].
      * destruct (inv_queue s HI A HinA) as (_ & _ & m & Hc & _).
        exists (enter rid m). split; [|done].
        by rewrite lookup_alter_ne, lookup_alter_eq, Hc.
      * destruct (inv_queue s HI B HinB) as (_ & _ & m & Hc & _).
        exists (enter rid m). split; [|done].
        by rewrite lookup_alter_eq, lookup_alter_ne, Hc.
    + destruct (inv_member s HI r room w Hr Hw) as (m & Hc & Hid).
      exists m. split; [|done].
      rewrite !lookup_alter_ne; [done|..]; intros <-.
      * apply (inv_excl s HI (q_ws A)); [by exists A|by exists r, room].
      * apply (inv_excl s HI (q_ws B)); [by exists B|by exists r, room].
  - rewrite lookup_insert_ne; [apply (inv_rid s HI)|done].
  - intros r room Hr.
    apply lookup_insert_Some in Hr as [[_ <-]|[_ Hr]]; [done|].
    by eapply (inv_distinct s HI).
  - intros w m Hc.
    apply lookup_alter_Some in Hc as [(<- & m' & Hc & ->)|[_ Hc]].
    { right; by right. }
    apply lookup_alter_Some in Hc as [(<- & m' & Hc & ->)|[_ Hc]].
    { right; by right. }
    by eapply (inv_state s HI).
  - intros w m Hc.
    apply lookup_alter_Some in Hc as [(<- & m' & Hc & ->)|[_ Hc]];
    apply lookup_alter_Some in Hc as [(? & m'' & Hc & ?)|[_ Hc]]; subst;
      by eapply (inv_fresh s HI).
Qed.

Lemma Inv_tryMatch rs now entropy s : Inv s -> Inv (tryMatch rs now entropy s).
Proof.
  intros HI. destruct (tryMatch_case rs now entropy s) as [|b A B _ _ Hlt He].
  - done.
  - destruct He as (Hi & Hj & _).
    apply Inv_paired; auto using uid_nonempty.
Qed.

(** *** The handlers *)

(** Changing the state or the preferences of a socket that is not queued. *)
Lemma Inv_mutate f x s :
  Inv s -> ~ inPool x s ->
  (forall m, roomId (f m) = roomId m) ->
  (forall m, validState (state (f m))) ->
  Inv (mutate f x s).
Proof.
  intros [H1 H2 H3 H4 H5 Hd H6 H7] Hp Hid Hst. split; simpl; try done.
  - intros e He. destruct (H2 e He) as (Hg & Hl & m & Hc & Hs).
    split; [done|]. split; [done|]. exists m. split; [|done].
    rewrite lookup_alter_ne; [done|]. intros ->. apply Hp. by exists e.
  - intros r room w Hr Hw. destruct (H4 r room w Hr Hw) as (m & Hc & Hm).
    destruct (decide (x = w)) as [->|Hne].
    + exists (f m). by rewrite lookup_alter_eq, Hc, Hid.
    + exists m. by rewrite lookup_alter_ne.
  - intros w m Hc. apply lookup_alter_Some in Hc as [(-> & m' & Hc & ->)|[_ Hc]];
      eauto.
  - intros w m Hc. apply lookup_alter_Some in Hc as [(-> & m' & Hc & ->)|[_ Hc]];
      eauto.
Qed.

Lemma Inv_push w p now m s :
  Inv s -> ~ inPool w s -> ~ isMember w s ->
  clients s !! w = Some m -> state m = "searching" ->
  truthy (roomId m) = false ->
  gender p <> "" -> level p <> "" ->
  Inv (set_queue (queue s ++ [mkEntry w p now]) s).
Proof.
  intros [H1 H2 H3 H4 H5 Hd H6 H7] Hp Hm Hc Hs Hf Hg Hl. split; simpl; try done.
  - rewrite fmap_app. apply NoDup_app. split; [done|]. split.
    + intros x Hx Hx'. simpl in Hx'. apply list_elem_of_singleton in Hx'.
      subst x. apply list_elem_of_fmap in Hx as (e & -> & He).
      apply Hp. by exists e.
    + simpl. apply NoDup_singleton.
  - intros e He. apply elem_of_app in He as [He|He]; [by apply H2|].
    apply list_elem_of_singleton in He. subst e. simpl. eauto 10.
  - intros x (e & He & <-) Hmem.
    apply elem_of_app in He as [He|He].
    + apply (H3 (q_ws e)); [by exists e|done].
    + apply list_elem_of_singleton in He. subst e. by apply Hm.
Qed.

Lemma Inv_unregister w s :
  Inv s -> ~ inPool w s -> ~ isMember w s ->
  Inv (set_clients (delete w (clients s)) s).
Proof.
  intros [H1 H2 H3 H4 H5 Hd H6 H7] Hp Hm. split; simpl; try done.
  - intros e He. destruct (H2 e He) as (Hg & Hl & m & Hc & Hs).
    split; [done|]. split; [done|]. exists m. split; [|done].
    rewrite lookup_delete_ne; [done|]. intros ->. apply Hp. by exists e.
  - intros r room x Hr Hx. destruct (H4 r room x Hr Hx) as (m & Hc & Hid).
    exists m. split; [|done]. rewrite lookup_delete_ne; [done|].
    intros ->. apply Hm. by exists r, room.
  - intros x m Hc. apply lookup_delete_Some in Hc as [_ Hc]. eauto.
  - intros x m Hc. apply lookup_delete_Some in Hc as [_ Hc]. eauto.
Qed.

Lemma Inv_onConnection rs entropy s : Inv s -> Inv (onConnection rs entropy s).
Proof.
  intros HI. unfold onConnection. apply Inv_safeSend.
  assert (Hnew : clients s !! nextSocket s = None).
  { destruct (clients s !! nextSocket s) as [m|] eqn:Hc; [|done].
    pose proof (inv_fresh s HI _ _ Hc). lia. }
  destruct HI as [H1 H2 H3 H4 H5 Hd H6 H7]. split; simpl; try done.
  - intros e He. destruct (H2 e He) as (Hg & Hl & m & Hc & Hs).
    split; [done|]. split; [done|]. exists m. split; [|done].
    rewrite lookup_insert_ne; [done|]. intros Heq. rewrite Heq in Hnew.
    by rewrite Hc in Hnew.
  - intros r room w Hr Hw. destruct (H4 r room w Hr Hw) as (m & Hc & Hid).
    exists m. split; [|done]. rewrite lookup_insert_ne; [done|].
    intros Heq. rewrite Heq in Hnew. by rewrite Hc in Hnew.
  - intros w m Hc. apply lookup_insert_Some in Hc as [[_ <-]|[_ Hc]]; eauto.
    by left.
  - intros w m Hc. apply lookup_insert_Some in Hc as [[<- _]|[_ Hc]]; [lia|].
    pose proof (H7 w m Hc). lia.
Qed.

Lemma validState_idle : validState "idle".
Proof. by left. Qed.

Lemma validState_searching : validState "searching".
Proof. right; by left. Qed.

Lemma Inv_enqueue rs w g l now s :
  Inv s -> is_Some (clients s !! w) -> Inv (enqueue rs w g l now s).
Proof.
  intros HI Hreg. unfold enqueue. apply Inv_safeSend.
  set (s1 := leaveRoom rs w s).
  set (s2 := removeFromQueue w s1).
  set (p := mkPrefs (or_default g "any") (or_default l "any")).
  assert (HI1 : Inv s1) by by apply Inv_leaveRoom.
  assert (HI2 : Inv s2) by by apply Inv_removeFromQueue.
  assert (Hp2 : ~ inPool w s2).
  { apply removeFromQueue_gone, (inv_nodup s1 HI1). }
  assert (Hs2 : rooms s2 = rooms s1 /\ clients s2 = clients s1).
  { unfold s2. rewrite removeFromQueue_fields. done. }
  destruct Hs2 as [Hr2 Hc2].
  assert (Hm2 : ~ isMember w s2).
  { unfold isMember. rewrite Hr2. by apply leaveRoom_notMember. }
  assert (Hreg1 : is_Some (clients s1 !! w)) by by apply leaveRoom_registered.
  destruct Hreg1 as [m Hm].
  pose proof (leaveRoom_roomId rs w s m Hm) as Hf.
  apply (Inv_push w p now (search p m)); simpl; auto.
  - apply Inv_mutate; auto using validState_searching.
  - by rewrite lookup_alter_eq, Hc2, Hm.
  - by apply or_default_nonempty.
  - by apply or_default_nonempty.
Qed.

Lemma Inv_onFind rs w g l now entropy s :
  Inv s -> is_Some (clients s !! w) -> Inv (onFind rs w g l now entropy s).
Proof. intros HI Hreg. unfold onFind. by apply Inv_tryMatch, Inv_enqueue. Qed.

Lemma Inv_onCancel rs w s : Inv s -> Inv (onCancel rs w s).
Proof.
  intros HI. unfold onCancel. apply Inv_safeSend.
  apply Inv_mutate; auto using validState_idle.
  - by apply Inv_removeFromQueue.
  - apply removeFromQueue_gone, (inv_nodup s HI).
Qed.

Lemma Inv_onChat rs w text s : Inv s -> Inv (onChat rs w text s).
Proof.
  intros HI. unfold onChat.
  destruct (clients s !! w) as [m|]; [|done].
  destruct (negb (truthy (roomId m))); [done|].
  destruct (rooms s !! default "" (roomId m)) as [room|]; [|done].
  destruct (negb (isOpen (rs (partner room w)))).
  - by apply Inv_leaveRoom, Inv_safeSend.
  - by apply Inv_safeSend.
Qed.

Lemma Inv_onLeave rs w s : Inv s -> Inv (onLeave rs w s).
Proof.
  intros HI. unfold onLeave. apply Inv_safeSend.
  pose proof (Inv_leaveRoom rs w s HI) as HI1.
  apply Inv_mutate; auto using validState_idle.
  - by apply Inv_removeFromQueue.
  - apply removeFromQueue_gone, (inv_nodup _ HI1).
Qed.

Lemma Inv_onMessage rs w req now entropy s :
  Inv s -> Inv (onMessage rs w req now entropy s).
Proof.
  intros HI. unfold onMessage.
  destruct (clients s !! w) as [m|] eqn:Hc; [|by destruct req].
  destruct req; try done.
  - apply Inv_onFind; [done|]. by rewrite Hc.
  - by apply Inv_onCancel.
  - by apply Inv_onChat.
  - by apply Inv_onLeave.
Qed.

Lemma Inv_onClose rs w s : Inv s -> Inv (onClose rs w s).
Proof.
  intros HI. unfold onClose.
  set (s1 := removeFromQueue w s).
  assert (HI1 : Inv s1) by by apply Inv_removeFromQueue.
  assert (Hp1 : ~ inPool w s1).
  { apply removeFromQueue_gone, (inv_nodup s HI). }
  apply Inv_unregister.
  - by apply Inv_leaveRoom.
  - unfold inPool. by rewrite leaveRoom_queue.
  - by apply leaveRoom_notMember.
Qed.

Lemma Inv_onTick rs now entropy s : Inv s -> Inv (onTick rs now entropy s).
Proof. intros HI. unfold onTick. by apply Inv_tryMatch, Inv_purge. Qed.

Lemma Inv_step rs ev s : Inv s -> Inv (step rs ev s).
Proof.
  intros HI. destruct ev; simpl.
  - by apply Inv_onConnection.
  - by apply Inv_onMessage.
  - by apply Inv_onClose.
  - by apply Inv_onTick.
Qed.

Lemma reachable_Inv s : reachable s -> Inv s.
Proof.
  induction 1 as [|rs ev s _ IH]; [apply Inv_init|by apply Inv_step].
Qed.

Lemma reachable_run evs s : reachable s -> reachable (run evs s).
Proof.
  revert s. induction evs as [|[rs ev] evs IH]; intros s Hs; simpl; [done|].
  apply IH. by constructor.
Qed.

(** ** Invocations of [tryMatch] *)


Lemma step_tick rs now entropy s :
  step rs (EvTick now entropy) s = tryMatch rs now entropy (purge rs s).
Proof. reflexivity. Qed.

Lemma step_find rs w g l now entropy s :
  is_Some (clients s !! w) ->
  step rs (EvMessage w (ReqFind g l) now entropy) s =
  tryMatch rs now entropy (enqueue rs w g l now s).
Proof. intros [m Hm]. simpl. by rewrite Hm. Qed.

(** ** The score in the words of the specification *)




(** *** The concrete run *)

Lemma demo_waiting_reachable : reachable demo_waiting.
Proof. apply reachable_run, reach_init. Qed.


Lemma demo_invoked_queue : queue demo_invoked = [demo_first; demo_second].
Proof. vm_compute. reflexivity. Qed.


(** ** Two entries without preferences *)

Lemma scan_two rs now A B :
  isOpen (rs (q_ws A)) = true -> isOpen (rs (q_ws B)) = true ->
  scan rs now [A; B] = Some (mkBest 0 1 (pairTotal now A B)).
Proof.
  intros HA HB. unfold scan, innerLoop. simpl. unfold consider. simpl.
  by rewrite HA, HB.
Qed.

Lemma tryMatch_two rs now entropy s A B :
  queue s = [A; B] ->
  isOpen (rs (q_ws A)) = true -> isOpen (rs (q_ws B)) = true ->
  tryMatch rs now entropy s = paired (uid entropy) 0 1 A B s.
Proof.
  intros Hq HA HB.
  destruct (tryMatch_case rs now entropy s) as [[Hlen|Hs]|b A' B' _ Hs _ He].
  - rewrite Hq in Hlen. simpl in Hlen. lia.
  - rewrite Hq, (scan_two rs now A B HA HB) in Hs. discriminate.
  - rewrite Hq, (scan_two rs now A B HA HB) in Hs. injection Hs as <-.
    destruct He as (Hi & Hj & _). rewrite Hq in Hi, Hj. simpl in Hi, Hj.
    by injection Hi as <-; injection Hj as <-.
Qed.

Lemma waitSeconds_nonneg now e :
  (enqueuedAt e <= now)%Z -> (0 <= waitSeconds now e)%Q.
Proof.
  intros H. unfold waitSeconds, Qdiv.
  apply Qmult_le_0_compat; [|done].
  rewrite <- (Zle_Qle 0). lia.
Qed.

Lemma waitingBonus_nonneg now A B :
  (enqueuedAt A <= now)%Z -> (enqueuedAt B <= now)%Z ->
  (0 <= waitingBonus now A B)%Q.
Proof.
  intros HA HB. unfold waitingBonus. apply Q.min_glb; [done|].
  unfold Qdiv. apply Qmult_le_0_compat; [|done].
  replace 0%Q with (0 + 0)%Q by done.
  apply Qplus_le_compat; by apply waitSeconds_nonneg.
Qed.

(** C3, as the code has it.  When the queue holds exactly two entries,
    both with preferences [{any, any}] and both sockets open, [tryMatch]
    pairs these two entries: the queue is left empty and the new room has
    their two sockets.  Their base score is 2 + 4 + 1 + 1 = 8, the total is
    [8 + waitBonus], and the total is at least 8 when neither entry was
    enqueued after the evaluation time. *)
Theorem C3_any_any_pair rs now entropy s A B :
  queue s = [A; B] ->
  q_prefs A = mkPrefs "any" "any" -> q_prefs B = mkPrefs "any" "any" ->
  isOpen (rs (q_ws A)) = true -> isOpen (rs (q_ws B)) = true ->
  scan rs now (queue s) = Some (mkBest 0 1 (pairTotal now A B)) /\
  queue (tryMatch rs now entropy s) = [] /\
  rooms (tryMatch rs now entropy s) !! uid entropy =
    Some (mkRoom (q_ws A) (q_ws B)) /\
  matchScore (q_prefs A) (q_prefs B) = 8%Z /\
  pairTotal now A B = (8 + waitingBonus now A B)%Q /\
  ((enqueuedAt A <= now)%Z -> (enqueuedAt B <= now)%Z ->
   (8 <= pairTotal now A B)%Q).
Proof.
  intros Hq HpA HpB HA HB.
  assert (Hbase : matchScore (q_prefs A) (q_prefs B) = 8%Z).
  { rewrite HpA, HpB. reflexivity. }
  assert (Htot : pairTotal now A B = (8 + waitingBonus now A B)%Q).
  { unfold pairTotal. by rewrite Hbase. }
  rewrite (tryMatch_two rs now entropy s A B Hq HA HB).
  split; [rewrite Hq; by apply scan_two|].
  split; [simpl; by rewrite Hq|].
  split; [simpl; apply lookup_insert_eq|].
  split; [done|]. split; [done|].
  intros HtA HtB. rewrite Htot.
  pose proof (waitingBonus_nonneg now A B HtA HtB) as Hw.
  rewrite <- (Qplus_0_r 8) at 1. by apply Qplus_le_compat.
Qed.

Lemma C3_any_any_pair_witness :
  scan allOpen 2000%Z (queue demo_invoked_plain) =
    Some (mkBest 0 1 (pairTotal 2000%Z demo_first demo_plain)) /\
  queue (tryMatch allOpen 2000%Z 255%N demo_invoked_plain) = [] /\
  rooms (tryMatch allOpen 2000%Z 255%N demo_invoked_plain) !! uid 255%N =
    Some (mkRoom 0 1) /\
  matchScore (q_prefs demo_first) (q_prefs demo_plain) = 8%Z /\
  pairTotal 2000%Z demo_first demo_plain =
    (8 + waitingBonus 2000%Z demo_first demo_plain)%Q /\
  ((1000 <= 2000)%Z -> (2000 <= 2000)%Z ->
   (8 <= pairTotal 2000%Z demo_first demo_plain)%Q).
Proof.
  apply (C3_any_any_pair allOpen 2000%Z 255%N demo_invoked_plain
           demo_first demo_plain); vm_compute; reflexivity.
Defined.

(** C3, as the specification words it, fails: on the same two entries the
    base score is 8, not 2, and the total differs from [2 + waitBonus]. *)
Lemma C3_counterexample :
  queue demo_invoked_plain = [demo_first; demo_plain] /\
  q_prefs demo_first = mkPrefs "any" "any" /\
  q_prefs demo_plain = mkPrefs "any" "any" /\
  matchScore (q_prefs demo_first) (q_prefs demo_plain) <> 2%Z /\
  exists b, scan allOpen 2000%Z (queue demo_invoked_plain) = Some b /\
    ~ (total b == 2 + waitingBonus 2000%Z demo_first demo_plain)%Q.
Proof.
  split; [vm_compute; reflexivity|].
  split; [reflexivity|]. split; [reflexivity|].
  split; [vm_compute; discriminate|].
  exists (mkBest 0 1 (pairTotal 2000%Z demo_first demo_plain)).
  split; [vm_compute; reflexivity|].
  vm_compute. discriminate.
Qed.

(** ** Lifecycle states and the exclusion of queue and rooms *)

Lemma leaveRoom_rooms rs w s r room :
  rooms (leaveRoom rs w s) !! r = Some room -> rooms s !! r = Some room.
Proof.
  destruct (leaveRoom_case rs w s); simpl; try done.
  intros Hr. by apply lookup_delete_Some in Hr as [_ Hr].
Qed.

Lemma enqueue_rooms rs w g l now s r room :
  rooms (enqueue rs w g l now s) !! r = Some room -> rooms s !! r = Some room.
Proof.
  unfold enqueue, safeSend. intros Hr. apply (leaveRoom_rooms rs w).
  destruct (isOpen (rs w)); simpl in Hr;
    by rewrite removeFromQueue_fields in Hr.
Qed.

Lemma purge_rooms rs s : rooms (purge rs s) = rooms s.
Proof. reflexivity. Qed.

(** A room that is in the table after [tryMatch] and was not before is the
    room of the pair just made: both members are in state ["chat"] and
    their records point to it. *)
Lemma tryMatch_new_room rs now entropy s r room :
  Inv s ->
  rooms (tryMatch rs now entropy s) !! r = Some room ->
  rooms s !! r <> Some room ->
  exists ma mb,
    clients (tryMatch rs now entropy s) !! room_a room = Some ma /\
    state ma = "chat" /\ roomId ma = Some r /\
    clients (tryMatch rs now entropy s) !! room_b room = Some mb /\
    state mb = "chat" /\ roomId mb = Some r.
Proof.
  intros HI.
  destruct (tryMatch_case rs now entropy s) as [|b A B _ _ Hlt He]; [done|].
  destruct He as (Hi & Hj & _). simpl. intros Hr Hnew.
  apply lookup_insert_Some in Hr as [[<- <-]|[_ Hr]]; [|done]. simpl.
  assert (HAB : q_ws A <> q_ws B).
  { eapply paired_distinct; eauto. apply (inv_nodup s HI). }
  destruct (inv_queue s HI A) as (_ & _ & ma & Hca & _);
    [by eapply list_elem_of_lookup_2|].
  destruct (inv_queue s HI B) as (_ & _ & mb & Hcb & _);
    [by eapply list_elem_of_lookup_2|].
  exists (enter (uid entropy) ma), (enter (uid entropy) mb).
  rewrite lookup_alter_ne, !lookup_alter_eq, lookup_alter_ne by done.
  by rewrite Hca, Hcb.
Qed.

Lemma step_rooms rs ev s r room :
  Inv s ->
  rooms (step rs ev s) !! r = Some room ->
  rooms s !! r <> Some room ->
  exists rs' now entropy s',
    Inv s' /\ step rs ev s = tryMatch rs' now entropy s' /\
    rooms s' !! r <> Some room.
Proof.
  intros HI Hr Hnew. destruct ev as [e|w req now e|w|now e]; simpl in *.
  - unfold onConnection, safeSend in Hr.
    destruct (isOpen _); simpl in Hr; done.
  - unfold onMessage in *.
    destruct (clients s !! w) as [m|] eqn:Hc; [|by destruct req].
    destruct req as [|g l| |text| |]; try done.
    + exists rs, now, e, (enqueue rs w g l now s).
      split; [apply Inv_enqueue; by rewrite ?Hc|]. split; [done|].
      intros Hr'. by apply Hnew, (enqueue_rooms rs w g l now).
    + unfold onCancel, safeSend in Hr.
      destruct (isOpen _); simpl in Hr; by rewrite removeFromQueue_fields in Hr.
    + unfold onChat in Hr. rewrite Hc in Hr.
      destruct (negb (truthy (roomId m))); [done|].
      destruct (rooms s !! default "" (roomId m)) as [room'|]; [|done].
      destruct (negb (isOpen (rs (partner room' w)))).
      * apply leaveRoom_rooms in Hr. unfold safeSend in Hr.
        by destruct (isOpen _).
      * unfold safeSend in Hr. by destruct (isOpen _).
    + unfold onLeave, safeSend in Hr.
      destruct (isOpen _); simpl in Hr; rewrite removeFromQueue_fields in Hr;
        simpl in Hr; by apply leaveRoom_rooms in Hr.
  - unfold onClose in Hr. simpl in Hr. apply leaveRoom_rooms in Hr.
    by rewrite removeFromQueue_fields in Hr.
  - exists rs, now, e, (purge rs s). split; [by apply Inv_purge|]. done.
Qed.

(** C2. In every reachable state the lifecycle state of every registered
    connection is one of ["idle"], ["searching"], ["chat"] (the code's name
    of the chatting state); no connection has a queue entry and is a room
    member at once; and whenever a callback creates a room, both members
    are in state ["chat"] bound to that room afterwards. *)
Theorem C2_states_and_exclusion s :
  reachable s ->
  (forall w m, clients s !! w = Some m ->
     state m = "idle" \/ state m = "searching" \/ state m = "chat") /\
  (forall w, ~ (inPool w s /\ isMember w s)) /\
  (forall rs ev r room,
     rooms (step rs ev s) !! r = Some room -> rooms s !! r <> Some room ->
     exists ma mb,
       clients (step rs ev s) !! room_a room = Some ma /\
       state ma = "chat" /\ roomId ma = Some r /\
       clients (step rs ev s) !! room_b room = Some mb /\
       state mb = "chat" /\ roomId mb = Some r).
Proof.
  intros Hreach. pose proof (reachable_Inv s Hreach) as HI.
  split; [apply (inv_state s HI)|].
  split; [intros w [Hp Hm]; by apply (inv_excl s HI w)|].
  intros rs ev r room Hr Hnew.
  destruct (step_rooms rs ev s r room HI Hr Hnew)
    as (rs' & now & entropy & s' & HI' & Hstep & Hnew').
  rewrite Hstep in *. by apply tryMatch_new_room.
Qed.

Lemma C2_states_and_exclusion_witness :
  (forall w m, clients demo_chatting !! w = Some m ->
     state m = "idle" \/ state m = "searching" \/ state m = "chat") /\
  (forall w, ~ (inPool w demo_chatting /\ isMember w demo_chatting)).
Proof.
  assert (Hr : reachable demo_chatting).
  { apply reach_step, reachable_run, reach_init. }
  destruct (C2_states_and_exclusion demo_chatting Hr) as (H1 & H2 & _).
  by split.
Defined.

(** ** cancel *)

Lemma set_state_same st m : state m = st -> set_state st m = m.
Proof. destruct m; simpl; by intros <-. Qed.

(** C4, as the code has it.  A [cancel] request of a registered connection
    that is not in state ["searching"] leaves the queue, the room table,
    the room reference of the connection and every other record as they
    were, and sends [canceled]; the state of the connection is set to
    ["idle"], so the record is unchanged only when it was idle already. *)
Theorem C4_cancel_not_searching rs w now entropy s m :
  reachable s -> clients s !! w = Some m -> state m <> "searching" ->
  queue (step rs (EvMessage w ReqCancel now entropy) s) = queue s /\
  rooms (step rs (EvMessage w ReqCancel now entropy) s) = rooms s /\
  clients (step rs (EvMessage w ReqCancel now entropy) s) !! w =
    Some (mkMeta (meta_id m) (roomId m) "idle" (prefs m)) /\
  (forall x, x <> w ->
     clients (step rs (EvMessage w ReqCancel now entropy) s) !! x =
     clients s !! x) /\
  (state m = "idle" ->
     clients (step rs (EvMessage w ReqCancel now entropy) s) = clients s) /\
  sent (step rs (EvMessage w ReqCancel now entropy) s) =
    sent s ++ (if isOpen (rs w) then [(w, msg_canceled)] else []).
Proof.
  intros Hreach Hc Hst. pose proof (reachable_Inv s Hreach) as HI.
  assert (Hp : ~ inPool w s).
  { intros (e & He & <-).
    destruct (inv_queue s HI e He) as (_ & _ & m' & Hc' & Hs & _). congruence. }
  simpl. unfold onMessage. rewrite Hc. unfold onCancel.
  rewrite (removeFromQueue_absent w s Hp). unfold safeSend.
  assert (Hw : alter (set_state "idle") w (clients s) !! w =
               Some (mkMeta (meta_id m) (roomId m) "idle" (prefs m))).
  { by rewrite lookup_alter_eq, Hc. }
  assert (Hx : forall x, x <> w ->
            alter (set_state "idle") w (clients s) !! x = clients s !! x).
  { intros x Hne. by rewrite lookup_alter_ne. }
  assert (Hid : state m = "idle" ->
            alter (set_state "idle") w (clients s) = clients s).
  { intros Hidle. apply alter_id. intros m' Hm'.
    apply set_state_same. congruence. }
  destruct (isOpen (rs w)); simpl; rewrite ?app_nil_r; done.
Qed.

Lemma demo_chatting_reachable : reachable demo_chatting.
Proof. apply reach_step, demo_waiting_reachable. Qed.

Lemma C4_cancel_not_searching_witness :
  queue (step allOpen (EvMessage 0 ReqCancel 0%Z 0%N) demo_idle) = queue demo_idle /\
  rooms (step allOpen (EvMessage 0 ReqCancel 0%Z 0%N) demo_idle) = rooms demo_idle /\
  clients (step allOpen (EvMessage 0 ReqCancel 0%Z 0%N) demo_idle) = clients demo_idle /\
  sent (step allOpen (EvMessage 0 ReqCancel 0%Z 0%N) demo_idle) =
    sent demo_idle ++ [(0, msg_canceled)].
Proof.
  assert (Hr : reachable demo_idle) by apply reachable_run, reach_init.
  assert (Hc : clients demo_idle !! 0 =
               Some (mkMeta (uid 5%N) None "idle" (mkPrefs "any" "any"))).
  { vm_compute. reflexivity. }
  assert (Hs : state (mkMeta (uid 5%N) None "idle" (mkPrefs "any" "any"))
               <> "searching") by (simpl; discriminate).
  destruct (C4_cancel_not_searching allOpen 0 0%Z 0%N demo_idle _ Hr Hc Hs)
    as (Hq & Hro & _ & _ & Hid & Hsent).
  split; [done|]. split; [done|]. split; [by apply Hid|done].
Defined.

(** C4, as the specification words it, fails for a chatting connection:
    its [cancel] turns the state ["chat"] into ["idle"] while it stays a
    member of its room. *)
Lemma C4_counterexample :
  reachable demo_chatting /\
  state <$> clients demo_chatting !! 0 = Some "chat" /\
  state <$> clients (step allOpen (EvMessage 0 ReqCancel 3000%Z 0%N) demo_chatting) !! 0
    = Some "idle" /\
  isMember 0 (step allOpen (EvMessage 0 ReqCancel 3000%Z 0%N) demo_chatting).
Proof.
  split; [apply demo_chatting_reachable|].
  split; [vm_compute; reflexivity|].
  split; [vm_compute; reflexivity|].
  exists (uid 255%N), (mkRoom 0 1). split; [vm_compute; reflexivity|by left].
Qed.

(** ** Purging and skipping closed sockets *)

Lemma eligible_filter rs (q : list Entry) i j A B :
  i < j -> eligible rs q i j A B ->
  2 <= length (filter (fun e => isOpen (rs (q_ws e)) = true) q).
Proof.
  intros Hlt (Hi & Hj & HA & HB).
  rewrite <- (take_drop_middle q i A Hi), filter_app, filter_cons_True by done.
  rewrite length_app. simpl.
  assert (HBin : B ∈ filter (fun e => isOpen (rs (q_ws e)) = true) (drop (S i) q)).
  { apply list_elem_of_filter. split; [done|].
    apply list_elem_of_lookup. exists (j - S i).
    rewrite lookup_drop. by replace (S i + (j - S i)) with j by lia. }
  destruct (filter _ (drop (S i) q)); [by apply elem_of_nil in HBin|].
  simpl. lia.
Qed.

Lemma tryMatch_few_open rs now entropy s :
  length (filter (fun e => isOpen (rs (q_ws e)) = true) (queue s)) < 2 ->
  tryMatch rs now entropy s = s.
Proof.
  intros Hfew.
  destruct (tryMatch_case rs now entropy s) as [|b A B _ _ Hlt He]; [done|].
  pose proof (eligible_filter rs (queue s) _ _ A B Hlt He). lia.
Qed.

Lemma splice_keeps {A} i (l : list A) x e :
  l !! i = Some x -> e ∈ l -> e <> x -> e ∈ splice i l.
Proof.
  intros Hi He Hne. unfold splice. rewrite delete_take_drop.
  rewrite <- (take_drop_middle l i x Hi) in He.
  apply elem_of_app in He as [He|He]; apply elem_of_app; [by left|].
  apply elem_of_cons in He as [->|He]; [done|by right].
Qed.

Lemma removeFromQueue_keeps w s e :
  e ∈ queue s -> q_ws e <> w -> e ∈ queue (removeFromQueue w s).
Proof.
  intros He Hne. unfold removeFromQueue.
  destruct (findIndex _ _) as [idx|] eqn:Hf; [|done]. simpl.
  apply findIndex_Some in Hf as (x & Hx & Hp).
  apply bool_decide_eq_true in Hp.
  apply (splice_keeps idx _ x); [done..|congruence].
Qed.

Lemma enqueue_keeps rs w g l now s e :
  e ∈ queue s -> q_ws e <> w -> e ∈ queue (enqueue rs w g l now s).
Proof.
  intros He Hne. unfold enqueue, safeSend.
  assert (e ∈ queue (removeFromQueue w (leaveRoom rs w s))).
  { apply removeFromQueue_keeps; [by rewrite leaveRoom_queue|done]. }
  destruct (isOpen (rs w)); simpl; apply elem_of_app; by left.
Qed.

(** [tryMatch] never removes an entry whose socket is not open. *)
Lemma tryMatch_keeps_closed rs now entropy s e :
  e ∈ queue s -> isOpen (rs (q_ws e)) = false ->
  e ∈ queue (tryMatch rs now entropy s).
Proof.
  intros He Hcl.
  destruct (tryMatch_case rs now entropy s) as [|b A B _ _ Hlt Hel]; [done|].
  destruct Hel as (Hi & Hj & HA & HB). simpl.
  apply (splice_keeps _ _ A).
  - unfold splice. by rewrite list_lookup_delete_lt.
  - apply (splice_keeps _ _ B); [done..|]. intros ->. congruence.
  - intros ->. congruence.
Qed.

(** C5, as the code has it.  The timer callback first removes from the
    queue every entry whose socket is not open and then calls [tryMatch];
    the call made by [find] after enqueueing removes no such entry, which
    stays queued, and [tryMatch] only passes over the pairs that contain
    one.  In both cases nothing is matched when fewer than two entries
    have an open socket. *)
Theorem C5_purge_then_match rs now entropy s :
  step rs (EvTick now entropy) s = tryMatch rs now entropy (purge rs s) /\
  queue (purge rs s) =
    filter (fun e => isOpen (rs (q_ws e)) = true) (queue s) /\
  (length (filter (fun e => isOpen (rs (q_ws e)) = true) (queue s)) < 2 ->
   step rs (EvTick now entropy) s = purge rs s /\
   tryMatch rs now entropy s = s) /\
  (forall w g l e,
     is_Some (clients s !! w) ->
     e ∈ queue s -> q_ws e <> w -> isOpen (rs (q_ws e)) = false ->
     e ∈ queue (step rs (EvMessage w (ReqFind g l) now entropy) s)).
Proof.
  split; [done|]. split; [apply purge_queue|]. split.
  - intros Hfew. split; [|by apply tryMatch_few_open].
    simpl. unfold onTick. apply tryMatch_few_open.
    rewrite purge_queue, list_filter_filter.
    erewrite list_filter_iff; [exact Hfew|]. intros x; simpl. tauto.
  - intros w g l e Hreg He Hne Hcl. rewrite step_find by done.
    apply tryMatch_keeps_closed; [|done]. by apply enqueue_keeps.
Qed.

(** C5, as the specification words it, fails for the call made by [find]:
    the first client searches, its socket starts closing, and before the
    close callback runs the second client searches; [tryMatch] then runs
    on a queue that still holds the entry of the closing socket, and leaves
    it there. *)
Lemma C5_counterexample :
  reachable demo_waiting /\
  step (closingOnly 0) (EvMessage 1 (ReqFind None None) 2000%Z 255%N) demo_waiting =
    tryMatch (closingOnly 0) 2000%Z 255%N
      (enqueue (closingOnly 0) 1 None None 2000%Z demo_waiting) /\
  queue (step (closingOnly 0) (EvMessage 1 (ReqFind None None) 2000%Z 255%N)
           demo_waiting) = [demo_first; demo_plain] /\
  isOpen (closingOnly 0 (q_ws demo_first)) = false.
Proof.
  split; [apply demo_waiting_reachable|].
  split; [reflexivity|].
  split; vm_compute; reflexivity.
Qed.

(** ** The pair made by [tryMatch] *)

(** [tryMatch] pairs whenever the scan selects a pair. *)
Lemma tryMatch_selected rs now entropy s b :
  scan rs now (queue s) = Some b ->
  best_i b < best_j b /\
  exists A B, eligible rs (queue s) (best_i b) (best_j b) A B /\
    tryMatch rs now entropy s =
      paired (uid entropy) (best_i b) (best_j b) A B s.
Proof.
  intros Hs.
  destruct (scan_Some rs now (queue s) b Hs) as (Hlt & A0 & B0 & He0 & _).
  split; [done|].
  destruct (tryMatch_case rs now entropy s) as [[Hlen|Hn]|b' A B _ Hs' _ He].
  - pose proof (eligible_lt rs (queue s) _ _ _ _ He0) as [_ Hj]. lia.
  - congruence.
  - assert (b' = b) as -> by congruence. by exists A, B.
Qed.

(** C6. When no socket has two queue entries, a successful [tryMatch]
    (the scan selected a pair) pairs the entries [A] and [B] of two
    different sockets, stores a room with these two distinct members, and
    removes exactly [A] and [B] from the queue, whose length drops by 2. *)
Theorem C6_match_removes_two rs now entropy s b :
  NoDup (q_ws <$> queue s) ->
  scan rs now (queue s) = Some b ->
  exists A B,
    queue s !! best_i b = Some A /\ queue s !! best_j b = Some B /\
    q_ws A <> q_ws B /\
    rooms (tryMatch rs now entropy s) !! uid entropy =
      Some (mkRoom (q_ws A) (q_ws B)) /\
    room_a (mkRoom (q_ws A) (q_ws B)) <> room_b (mkRoom (q_ws A) (q_ws B)) /\
    queue s ≡ₚ A :: B :: queue (tryMatch rs now entropy s) /\
    length (queue (tryMatch rs now entropy s)) + 2 = length (queue s) /\
    (forall e, e ∈ queue (tryMatch rs now entropy s) ->
       q_ws e <> q_ws A /\ q_ws e <> q_ws B).
Proof.
  intros Hnd Hs.
  destruct (tryMatch_selected rs now entropy s b Hs) as (Hlt & A & B & He & Ht).
  destruct He as (Hi & Hj & _). rewrite Ht. simpl.
  assert (HAB : q_ws A <> q_ws B) by by eapply paired_distinct.
  exists A, B. split; [done|]. split; [done|]. split; [done|].
  split; [apply lookup_insert_eq|]. split; [done|].
  split; [|split].
  - assert (Hi' : splice (best_j b) (queue s) !! best_i b = Some A).
    { unfold splice. by rewrite list_lookup_delete_lt. }
    transitivity (B :: splice (best_j b) (queue s));
      [by apply delete_Permutation|].
    transitivity (B :: A :: splice (best_i b) (splice (best_j b) (queue s)));
      [|apply perm_swap].
    apply perm_skip. by apply delete_Permutation.
  - by eapply paired_length.
  - intros e He. by eapply paired_rest.
Qed.

Lemma C6_match_removes_two_witness :
  exists A B,
    queue demo_invoked !! 0 = Some A /\ queue demo_invoked !! 1 = Some B /\
    q_ws A <> q_ws B /\
    rooms (tryMatch allOpen 4000%Z 255%N demo_invoked) !! uid 255%N =
      Some (mkRoom (q_ws A) (q_ws B)) /\
    length (queue (tryMatch allOpen 4000%Z 255%N demo_invoked)) + 2 =
      length (queue demo_invoked).
Proof.
  assert (Hnd : NoDup (q_ws <$> queue demo_invoked)).
  { apply (bool_decide_unpack _). vm_compute. exact I. }
  assert (Hs : scan allOpen 4000%Z (queue demo_invoked) =
               Some (mkBest 0 1 (pairTotal 4000%Z demo_first demo_second))).
  { vm_compute. reflexivity. }
  destruct (C6_match_removes_two allOpen 4000%Z 255%N demo_invoked _ Hnd Hs)
    as (A & B & Hi & Hj & Hne & Hr & _ & _ & Hlen & _).
  exists A, B. done.
Defined.


(** Three entries with the same preferences and timestamp: all totals are
    equal and the first pair visited, positions 0 and 1, is taken. *)
Example scan_tie_first :
  let e := fun w => mkEntry w (mkPrefs "any" "any") 0%Z in
  scan allOpen 6000%Z [e 0; e 1; e 2] =
    Some (mkBest 0 1 (pairTotal 6000%Z (e 0) (e 1))).
Proof. vm_compute. reflexivity. Qed.

(** A later pair with a strictly greater total replaces the running best. *)
Example scan_later_greater :
  let e := fun w lv => mkEntry w (mkPrefs "male" lv) 0%Z in
  scan allOpen 6000%Z [e 0 "beginner"; e 1 "advanced"; e 2 "advanced"] =
    Some (mkBest 1 2
            (pairTotal 6000%Z (e 1 "advanced") (e 2 "advanced"))).
Proof. vm_compute. reflexivity. Qed.

(** ** chat *)

Lemma truthy_Some rid : rid <> "" -> truthy (Some rid) = true.
Proof. by destruct rid. Qed.

(** [leaveRoom] of a socket bound to an existing room whose partner is not
    open: only the room and the record of the leaving socket change. *)
Lemma leaveRoom_partner_closed rs w s m rid room :
  clients s !! w = Some m -> roomId m = Some rid -> rid <> "" ->
  rooms s !! rid = Some room -> isOpen (rs (partner room w)) = false ->
  leaveRoom rs w s =
  mutate reset w (set_rooms (delete rid (rooms s)) s).
Proof.
  intros Hc Hid Hne Hr Ho. unfold leaveRoom.
  rewrite Hc, Hid, (truthy_Some rid Hne). simpl. by rewrite Hr, Ho.
Qed.

(** C8. A [chat] request of a connection whose record is bound to an
    existing room: when the socket of the partner is open, the only effect
    is one [chat] message to the partner carrying the text of the sender;
    when it is not open, nothing is sent to the partner, the room is
    deleted, the record of the sender is reset, and [partner_left] is sent
    to the sender (through [safeSend], hence when the socket of the sender
    is open, as it is while its request is handled). *)
Theorem C8_chat_relay rs w text now entropy s m rid room :
  clients s !! w = Some m -> roomId m = Some rid -> rid <> "" ->
  rooms s !! rid = Some room ->
  (isOpen (rs (partner room w)) = true ->
   step rs (EvMessage w (ReqChat (Some text)) now entropy) s =
   set_sent (sent s ++ [(partner room w, msg_chat text)]) s) /\
  (isOpen (rs (partner room w)) = false ->
   queue (step rs (EvMessage w (ReqChat (Some text)) now entropy) s) = queue s /\
   rooms (step rs (EvMessage w (ReqChat (Some text)) now entropy) s) =
     delete rid (rooms s) /\
   clients (step rs (EvMessage w (ReqChat (Some text)) now entropy) s) =
     alter reset w (clients s) /\
   sent (step rs (EvMessage w (ReqChat (Some text)) now entropy) s) =
     sent s ++ (if isOpen (rs w) then [(w, msg_partner_left)] else []) /\
   (isOpen (rs w) = true ->
    sent (step rs (EvMessage w (ReqChat (Some text)) now entropy) s) =
      sent s ++ [(w, msg_partner_left)])).
Proof.
  intros Hc Hid Hne Hr. simpl. unfold onMessage, onChat.
  rewrite Hc, Hid, (truthy_Some rid Hne). simpl. rewrite Hr. split.
  - intros Ho. rewrite Ho. simpl. unfold safeSend.
    rewrite Ho. by destruct text.
  - intros Ho. rewrite Ho. simpl.
    assert (Hlog : sent (safeSend rs w msg_partner_left s) =
              sent s ++ (if isOpen (rs w) then [(w, msg_partner_left)] else [])).
    { unfold safeSend. destruct (isOpen (rs w)); simpl; by rewrite ?app_nil_r. }
    rewrite (leaveRoom_partner_closed rs w _ m rid room); simpl;
      try (unfold safeSend; by destruct (isOpen (rs w))).
    assert (Hsame : queue (safeSend rs w msg_partner_left s) = queue s /\
                    rooms (safeSend rs w msg_partner_left s) = rooms s /\
                    clients (safeSend rs w msg_partner_left s) = clients s).
    { unfold safeSend. by destruct (isOpen (rs w)). }
    destruct Hsame as (-> & -> & ->). rewrite Hlog.
    repeat split; try done. by intros ->.
Qed.

Lemma C8_chat_relay_witness :
  step allOpen (EvMessage 0 (ReqChat (Some "hi")) 3000%Z 0%N) demo_chatting =
  set_sent (sent demo_chatting ++ [(1, msg_chat "hi")]) demo_chatting.
Proof.
  assert (Hc : clients demo_chatting !! 0 =
            Some (mkMeta (uid 5%N) (Some (uid 255%N)) "chat" (mkPrefs "any" "any"))).
  { vm_compute. reflexivity. }
  assert (Hr : rooms demo_chatting !! uid 255%N = Some (mkRoom 0 1)).
  { vm_compute. reflexivity. }
  destruct (C8_chat_relay allOpen 0 "hi" 3000%Z 0%N demo_chatting _ _ _
              Hc eq_refl (uid_nonempty 255%N) Hr) as [Hopen _].
  by apply Hopen.
Defined.

(** The partner's socket is closing: the sender gets [partner_left] and
    the room is gone. *)
Example chat_partner_closed :
  let s' := step (closingOnly 1) (EvMessage 0 (ReqChat (Some "hi")) 3000%Z 0%N)
              demo_chatting in
  sent s' = sent demo_chatting ++ [(0, msg_partner_left)] /\
  rooms s' = ∅ /\
  state <$> clients s' !! 0 = Some "idle".
Proof. vm_compute. done. Qed.

(** ** leaveRoom *)

Lemma leaveRoom_noop rs w s :
  (forall m, clients s !! w = Some m -> truthy (roomId m) = false) ->
  leaveRoom rs w s = s.
Proof.
  intros H. unfold leaveRoom. destruct (clients s !! w) as [m|]; [|done].
  by rewrite (H m eq_refl).
Qed.

(** C9. A second [leaveRoom] on the same connection, whatever the
    transport status then, returns the state left by the first: no record
    changes, no room is deleted and nothing is added to the log of sent
    messages; and [leaveRoom] on a connection whose record carries no room
    (or that is not registered) changes nothing. *)
Theorem C9_leaveRoom_idempotent rs rs' w s :
  leaveRoom rs' w (leaveRoom rs w s) = leaveRoom rs w s /\
  sent (leaveRoom rs' w (leaveRoom rs w s)) = sent (leaveRoom rs w s) /\
  ((forall m, clients s !! w = Some m -> truthy (roomId m) = false) ->
   leaveRoom rs w s = s).
Proof.
  assert (H2 : leaveRoom rs' w (leaveRoom rs w s) = leaveRoom rs w s).
  { apply leaveRoom_noop. intros m. apply leaveRoom_roomId. }
  split; [done|]. split; [by rewrite H2|]. apply leaveRoom_noop.
Qed.

(** The first call notifies the partner once, the second adds nothing. *)
Example leaveRoom_twice :
  sent (leaveRoom allOpen 0 demo_chatting) =
    sent demo_chatting ++ [(1, msg_partner_left)] /\
  sent (leaveRoom allOpen 0 (leaveRoom allOpen 0 demo_chatting)) =
    sent demo_chatting ++ [(1, msg_partner_left)].
Proof. vm_compute. done. Qed.

(** C10. In a reachable state, [leaveRoom] for a connection bound to a
    room whose partner is registered but has a socket that is not open
    deletes the room and resets the leaving connection, sends nothing, and
    leaves the record of the partner as it was: it keeps its state and its
    reference to the deleted room, until a [leaveRoom] of the partner
    itself (in its [find], [leave] or close callback) resets it. *)
Theorem C10_closed_partner_kept rs w s m rid room om :
  reachable s ->
  clients s !! w = Some m -> roomId m = Some rid ->
  rooms s !! rid = Some room ->
  isOpen (rs (partner room w)) = false ->
  clients s !! partner room w = Some om ->
  rooms (leaveRoom rs w s) = delete rid (rooms s) /\
  rooms (leaveRoom rs w s) !! rid = None /\
  clients (leaveRoom rs w s) !! w = Some (mkMeta (meta_id m) None "idle" (prefs m)) /\
  clients (leaveRoom rs w s) !! partner room w = Some om /\
  roomId om = Some rid /\
  sent (leaveRoom rs w s) = sent s /\
  (forall rs', clients (leaveRoom rs' (partner room w) (leaveRoom rs w s))
                 !! partner room w =
               Some (mkMeta (meta_id om) None "idle" (prefs om))).
Proof.
  intros Hreach Hc Hid Hr Ho Hco. pose proof (reachable_Inv s Hreach) as HI.
  assert (Hne : rid <> "").
  { intros ->. rewrite (inv_rid s HI) in Hr. discriminate. }
  assert (Hpw : partner room w <> w).
  { pose proof (inv_distinct s HI rid room Hr) as Hd. unfold partner.
    destruct (decide (room_a room = w)); congruence. }
  assert (Hoid : roomId om = Some rid).
  { apply (member_roomId (partner room w) rid room om s HI Hr); [|done].
    apply partner_member. }
  rewrite (leaveRoom_partner_closed rs w s m rid room) by done. simpl.
  assert (Hko : alter reset w (clients s) !! partner room w = Some om).
  { by rewrite lookup_alter_ne. }
  split; [done|]. split; [apply lookup_delete_eq|].
  split; [by rewrite lookup_alter_eq, Hc|].
  split; [done|]. split; [done|]. split; [done|].
  intros rs'. unfold leaveRoom at 1. simpl.
  rewrite Hko, Hoid, (truthy_Some rid Hne). simpl.
  rewrite lookup_delete_eq. simpl. by rewrite lookup_alter_eq, Hko.
Qed.

Lemma C10_closed_partner_kept_witness :
  rooms (leaveRoom (closingOnly 1) 0 demo_chatting) !! uid 255%N = None /\
  clients (leaveRoom (closingOnly 1) 0 demo_chatting) !! 0 =
    Some (mkMeta (uid 5%N) None "idle" (mkPrefs "any" "any")) /\
  clients (leaveRoom (closingOnly 1) 0 demo_chatting) !! 1 =
    Some (mkMeta (uid 77%N) (Some (uid 255%N)) "chat" (mkPrefs "any" "any")) /\
  sent (leaveRoom (closingOnly 1) 0 demo_chatting) = sent demo_chatting.
Proof.
  assert (Hc : clients demo_chatting !! 0 =
            Some (mkMeta (uid 5%N) (Some (uid 255%N)) "chat" (mkPrefs "any" "any"))).
  { vm_compute. reflexivity. }
  assert (Hr : rooms demo_chatting !! uid 255%N = Some (mkRoom 0 1)).
  { vm_compute. reflexivity. }
  assert (Hco : clients demo_chatting !! partner (mkRoom 0 1) 0 =
            Some (mkMeta (uid 77%N) (Some (uid 255%N)) "chat" (mkPrefs "any" "any"))).
  { vm_compute. reflexivity. }
  destruct (C10_closed_partner_kept (closingOnly 1) 0 demo_chatting _ _ _ _
              demo_chatting_reachable Hc eq_refl Hr eq_refl Hco)
    as (_ & Hgone & Hw & Hp & _ & Hs & _).
  done.
Defined.

(** * Further properties of the code *)

(** ** uid *)

Lemma hexdigit_inj d1 d2 :
  (d1 < 16)%N -> (d2 < 16)%N -> hexdigit d1 = hexdigit d2 -> d1 = d2.
Proof.
  intros H1 H2.
  destruct d1 as [|p1]; destruct d2 as [|p2];
    try (do 4 (try destruct p1 as [p1|p1|])); try (do 4 (try destruct p2 as [p2|p2|]));
    simpl; intros E; try reflexivity; try discriminate E; lia.
Qed.

Lemma hexdigit_char d :
  hexdigit d ∈ list_ascii_of_string "0123456789abcdef".
Proof.
  apply (bool_decide_unpack _).
  destruct d as [|p]; [by vm_compute|].
  do 4 (try destruct p as [p|p|]); by vm_compute.
Qed.

Lemma hex_chars k n acc c :
  c ∈ list_ascii_of_string (hex k n acc) ->
  c ∈ list_ascii_of_string "0123456789abcdef" \/ c ∈ list_ascii_of_string acc.
Proof.
  revert n acc. induction k as [|k IH]; intros n acc; simpl; [by right|].
  intros Hc. apply IH in Hc as [Hc|Hc]; [by left|].
  simpl in Hc. apply elem_of_cons in Hc as [->|Hc]; [left|by right].
  apply hexdigit_char.
Qed.

Lemma hex_inj k n m acc acc' :
  hex k n acc = hex k m acc' ->
  (n mod 16 ^ N.of_nat k = m mod 16 ^ N.of_nat k)%N /\ acc = acc'.
Proof.
  revert n m acc acc'. induction k as [|k IH]; intros n m acc acc'; simpl hex.
  - intros ->. by rewrite !N.mod_1_r.
  - intros H. apply IH in H as [Hhi Hlo]. injection Hlo as Hd ->.
    apply hexdigit_inj in Hd; [|by apply N.mod_lt..].
    split; [|done].
    rewrite Nat2N.inj_succ, N.pow_succ_r'.
    rewrite !N.Div0.mod_mul_r. by rewrite Hd, Hhi.
Qed.

(** X1. The identifier is a string of 16 lowercase hexadecimal digits, and
    two identifiers are equal exactly when the 8 random bytes are. *)
Theorem uid_hex16_injective e1 e2 :
  String.length (uid e1) = 16 /\
  (forall c, c ∈ list_ascii_of_string (uid e1) ->
     c ∈ list_ascii_of_string "0123456789abcdef") /\
  (uid e1 = uid e2 <-> (e1 mod 2 ^ 64 = e2 mod 2 ^ 64)%N).
Proof.
  split; [apply uid_length|]. split.
  - intros c Hc. unfold uid in Hc. apply hex_chars in Hc as [Hc|Hc]; [done|].
    by apply elem_of_nil in Hc.
  - unfold uid. split; [|by intros ->].
    intros H. apply hex_inj in H as [H _].
    change (16 ^ N.of_nat 16)%N with (2 ^ 64)%N in H.
    by rewrite !N.Div0.mod_mod in H.
Qed.

(** ** The log of sent messages *)

Lemma appendsToOpen_same rs s s' : sent s' = sent s -> appendsToOpen rs s s'.
Proof. intros H. exists []. by rewrite app_nil_r. Qed.

Lemma appendsToOpen_trans rs s1 s2 s3 :
  appendsToOpen rs s1 s2 -> appendsToOpen rs s2 s3 -> appendsToOpen rs s1 s3.
Proof.
  intros (n1 & H1 & F1) (n2 & H2 & F2). exists (n1 ++ n2).
  rewrite H2, H1, app_assoc. split; [done|]. by apply Forall_app.
Qed.

Lemma appendsToOpen_safeSend rs w p s : appendsToOpen rs s (safeSend rs w p s).
Proof.
  unfold safeSend. destruct (isOpen (rs w)) eqn:Ho.
  - exists [(w, p)]. split; [done|]. by repeat constructor.
  - by apply appendsToOpen_same.
Qed.

Lemma appendsToOpen_leaveRoom rs w s : appendsToOpen rs s (leaveRoom rs w s).
Proof.
  destruct (leaveRoom_case rs w s) as [|? ? ? ? ? ?|m rid room ? ? ? ?];
    try by apply appendsToOpen_same.
  destruct (isOpen (rs (partner room w))) eqn:Ho;
    [|by apply appendsToOpen_same].
  eapply appendsToOpen_trans;
    [apply (appendsToOpen_safeSend rs (partner room w) msg_partner_left)|].
  apply appendsToOpen_same. simpl. unfold safeSend. by rewrite Ho.
Qed.

Lemma appendsToOpen_tryMatch rs now entropy s :
  appendsToOpen rs s (tryMatch rs now entropy s).
Proof.
  destruct (tryMatch_case rs now entropy s) as [|b A B _ _ _ He];
    [by apply appendsToOpen_same|].
  destruct He as (_ & _ & HA & HB). eexists. split; [done|].
  by repeat constructor.
Qed.

Lemma removeFromQueue_sent w s : sent (removeFromQueue w s) = sent s.
Proof. by rewrite removeFromQueue_fields. Qed.

(** X2. Whatever callback runs, the log of sent messages only grows, and
    every message added is addressed to a socket that is open during that
    callback: the server never writes to a socket that is not open. *)
Theorem step_sends_to_open_only rs ev s :
  exists new, sent (step rs ev s) = sent s ++ new /\
    Forall (fun x => isOpen (rs (fst x)) = true) new.
Proof.
  change (appendsToOpen rs s (step rs ev s)).
  destruct ev as [e|w req now e|w|now e]; simpl.
  - unfold onConnection.
    eapply appendsToOpen_trans; [|apply appendsToOpen_safeSend].
    by apply appendsToOpen_same.
  - unfold onMessage.
    destruct (clients s !! w) as [m|] eqn:Hc;
      [|destruct req; by apply appendsToOpen_same].
    destruct req as [|g l| |text| |]; try by apply appendsToOpen_same.
    + unfold onFind, enqueue.
      eapply appendsToOpen_trans; [|apply appendsToOpen_tryMatch].
      eapply appendsToOpen_trans; [|apply appendsToOpen_safeSend].
      eapply appendsToOpen_trans; [apply (appendsToOpen_leaveRoom rs w)|].
      apply appendsToOpen_same. simpl. apply removeFromQueue_sent.
    + unfold onCancel.
      eapply appendsToOpen_trans; [|apply appendsToOpen_safeSend].
      apply appendsToOpen_same. simpl. apply removeFromQueue_sent.
    + unfold onChat. rewrite Hc.
      destruct (negb (truthy (roomId m))); [by apply appendsToOpen_same|].
      destruct (rooms s !! default "" (roomId m)) as [room|];
        [|by apply appendsToOpen_same].
      destruct (negb (isOpen (rs (partner room w)))).
      * eapply appendsToOpen_trans; [apply appendsToOpen_safeSend|].
        apply appendsToOpen_leaveRoom.
      * apply appendsToOpen_safeSend.
    + unfold onLeave.
      eapply appendsToOpen_trans; [|apply appendsToOpen_safeSend].
      eapply appendsToOpen_trans; [apply (appendsToOpen_leaveRoom rs w)|].
      apply appendsToOpen_same. simpl. apply removeFromQueue_sent.
  - unfold onClose.
    eapply appendsToOpen_trans;
      [|eapply appendsToOpen_trans;
          [apply (appendsToOpen_leaveRoom rs w)|by apply appendsToOpen_same]].
    apply appendsToOpen_same. apply removeFromQueue_sent.
  - unfold onTick. eapply appendsToOpen_trans; [|apply appendsToOpen_tryMatch].
    by apply appendsToOpen_same.
Qed.

(** ** removeFromQueue *)

Lemma findIndex_app_first {A} (p : A -> bool) l1 e l2 :
  (forall x, x ∈ l1 -> p x = false) -> p e = true ->
  findIndex p (l1 ++ e :: l2) = Some (length l1).
Proof.
  induction l1 as [|y l1 IH]; intros Hl He; simpl.
  - by rewrite He.
  - rewrite (Hl y) by (by left). rewrite IH; [done| |done].
    intros x Hx. apply Hl. by right.
Qed.

(** X3. [removeFromQueue] removes the first entry of the socket and nothing
    else: the entries before and after it stay, in order, also a later
    entry of the same socket; when the socket has no entry the state is
    unchanged. *)
Theorem removeFromQueue_first_only w s :
  ((forall x, x ∈ queue s -> q_ws x <> w) -> removeFromQueue w s = s) /\
  (forall l1 e l2,
     queue s = l1 ++ e :: l2 -> q_ws e = w ->
     (forall x, x ∈ l1 -> q_ws x <> w) ->
     removeFromQueue w s = set_queue (l1 ++ l2) s).
Proof.
  split.
  - intros Hno. apply removeFromQueue_absent. intros (e & He & Hw).
    by apply (Hno e).
  - intros l1 e l2 Hq He Hl1. unfold removeFromQueue. rewrite Hq.
    rewrite (findIndex_app_first _ l1 e l2).
    + unfold splice. by rewrite delete_middle.
    + intros x Hx. apply bool_decide_eq_false. by apply Hl1.
    + by apply bool_decide_eq_true.
Qed.

(** A second entry of the same socket survives. *)
Example removeFromQueue_duplicate :
  let e := fun w t => mkEntry w (mkPrefs "any" "any") t in
  queue (removeFromQueue 0
           (mkServer [e 1 10%Z; e 0 20%Z; e 2 30%Z; e 0 40%Z] ∅ ∅ [] 3)) =
  [e 1 10%Z; e 2 30%Z; e 0 40%Z].
Proof. vm_compute. reflexivity. Qed.

(** ** leaveRoom with an open partner *)

(** X4. In a reachable state, [leaveRoom] for a connection bound to a room
    whose partner has an open socket deletes the room, resets both records
    to ["idle"] without room, and sends exactly one [partner_left], to the
    partner; the queue is untouched. *)
Theorem leaveRoom_notifies_open_partner rs w s m rid room om :
  reachable s ->
  clients s !! w = Some m -> roomId m = Some rid ->
  rooms s !! rid = Some room ->
  isOpen (rs (partner room w)) = true ->
  clients s !! partner room w = Some om ->
  queue (leaveRoom rs w s) = queue s /\
  rooms (leaveRoom rs w s) = delete rid (rooms s) /\
  clients (leaveRoom rs w s) !! w =
    Some (mkMeta (meta_id m) None "idle" (prefs m)) /\
  clients (leaveRoom rs w s) !! partner room w =
    Some (mkMeta (meta_id om) None "idle" (prefs om)) /\
  (forall x, x <> w -> x <> partner room w ->
     clients (leaveRoom rs w s) !! x = clients s !! x) /\
  sent (leaveRoom rs w s) = sent s ++ [(partner room w, msg_partner_left)].
Proof.
  intros Hreach Hc Hid Hr Ho Hco. pose proof (reachable_Inv s Hreach) as HI.
  assert (Hne : rid <> "").
  { intros ->. rewrite (inv_rid s HI) in Hr. discriminate. }
  assert (Hpw : partner room w <> w).
  { pose proof (inv_distinct s HI rid room Hr) as Hd. unfold partner.
    destruct (decide (room_a room = w)); congruence. }
  unfold leaveRoom. rewrite Hc, Hid, (truthy_Some rid Hne). simpl.
  rewrite Hr, Ho. unfold safeSend. rewrite Ho. simpl.
  split; [done|]. split; [done|].
  split; [by rewrite lookup_alter_eq, lookup_alter_ne, Hc|].
  split; [by rewrite lookup_alter_ne, lookup_alter_eq, Hco|].
  split; [|done].
  intros x Hx1 Hx2. by rewrite !lookup_alter_ne.
Qed.

Lemma leaveRoom_notifies_open_partner_witness :
  rooms (leaveRoom allOpen 0 demo_chatting) = delete (uid 255%N) (rooms demo_chatting) /\
  clients (leaveRoom allOpen 0 demo_chatting) !! 1 =
    Some (mkMeta (uid 77%N) None "idle" (mkPrefs "any" "any")) /\
  sent (leaveRoom allOpen 0 demo_chatting) =
    sent demo_chatting ++ [(1, msg_partner_left)].
Proof.
  assert (Hc : clients demo_chatting !! 0 =
            Some (mkMeta (uid 5%N) (Some (uid 255%N)) "chat" (mkPrefs "any" "any"))).
  { vm_compute. reflexivity. }
  assert (Hr : rooms demo_chatting !! uid 255%N = Some (mkRoom 0 1)).
  { vm_compute. reflexivity. }
  assert (Hco : clients demo_chatting !! partner (mkRoom 0 1) 0 =
            Some (mkMeta (uid 77%N) (Some (uid 255%N)) "chat" (mkPrefs "any" "any"))).
  { vm_compute. reflexivity. }
  destruct (leaveRoom_notifies_open_partner allOpen 0 demo_chatting _ _ _ _
              demo_chatting_reachable Hc eq_refl Hr eq_refl Hco)
    as (_ & Hro & _ & Hp & _ & Hs).
  done.
Defined.

(** ** The scorer *)

(** X5. [matchScore] does not depend on the order of its arguments, lies
    between 0 and 8, is 8 exactly when all four fields are [any], and
    treats an empty (falsy) field as [any]. *)
Theorem matchScore_symmetric_bounded p1 p2 :
  matchScore p1 p2 = matchScore p2 p1 /\
  (0 <= matchScore p1 p2 <= 8)%Z /\
  (matchScore p1 p2 = 8%Z <->
   str_or (gender p1) "any" = "any" /\ str_or (gender p2) "any" = "any" /\
   str_or (level p1) "any" = "any" /\ str_or (level p2) "any" = "any") /\
  matchScore (mkPrefs "" (level p1)) p2 =
    matchScore (mkPrefs "any" (level p1)) p2 /\
  matchScore (mkPrefs (gender p1) "") p2 =
    matchScore (mkPrefs (gender p1) "any") p2.
Proof.
  split; [|split; [|split; [|split; [done|done]]]].
  - unfold matchScore.
    repeat case_bool_decide; simpl; try lia; congruence.
  - unfold matchScore. repeat case_bool_decide; simpl; lia.
  - unfold matchScore. split.
    + repeat case_bool_decide; simpl; intros; try lia; repeat split;
        congruence.
    + intros (-> & -> & -> & ->). reflexivity.
Qed.

(** Same specific preferences score 6; preferences that differ in both
    fields score at most 2. *)
Example matchScore_values :
  matchScore (mkPrefs "male" "beginner") (mkPrefs "male" "beginner") = 6%Z /\
  matchScore (mkPrefs "male" "beginner") (mkPrefs "female" "advanced") = 0%Z /\
  matchScore (mkPrefs "any" "beginner") (mkPrefs "female" "any") = 2%Z.
Proof. by vm_compute. Qed.

(** ** The waiting bonus *)



(** ** Progress of [tryMatch] *)

Lemma tryMatch_queue_sublist rs now entropy s :
  queue (tryMatch rs now entropy s) `sublist_of` queue s.
Proof.
  destruct (tryMatch_case rs now entropy s) as [|b A B _ _ _ _]; [done|].
  simpl. etrans; apply splice_sublist.
Qed.

(** X7. No pair is ever rejected: as soon as two queue positions hold
    entries with open sockets, [tryMatch] makes a pair; it stores a room
    under the fresh identifier, takes two entries with open sockets out of
    the queue and sends [matched] with that identifier to both. *)
Theorem tryMatch_pairs_when_two_open rs now entropy s i j A B :
  i < j -> eligible rs (queue s) i j A B ->
  exists A' B',
    A' ∈ queue s /\ B' ∈ queue s /\
    isOpen (rs (q_ws A')) = true /\ isOpen (rs (q_ws B')) = true /\
    rooms (tryMatch rs now entropy s) !! uid entropy =
      Some (mkRoom (q_ws A') (q_ws B')) /\
    length (queue (tryMatch rs now entropy s)) + 2 = length (queue s) /\
    sent (tryMatch rs now entropy s) =
      sent s ++ [(q_ws A', msg_matched (uid entropy) "Partner" "Online");
                 (q_ws B', msg_matched (uid entropy) "Partner" "Online")].
Proof.
  intros Hij He.
  destruct (scan rs now (queue s)) as [b|] eqn:Hs; cycle 1.
  { by destruct (scan_None rs now (queue s) i j A B Hs Hij). }
  destruct (tryMatch_selected rs now entropy s b Hs)
    as (Hlt & A' & B' & (Hi & Hj & HA & HB) & Ht).
  exists A', B'. rewrite Ht. simpl.
  split; [by eapply list_elem_of_lookup_2|].
  split; [by eapply list_elem_of_lookup_2|].
  split; [done|]. split; [done|]. split; [apply lookup_insert_eq|].
  split; [by eapply paired_length|done].
Qed.

Lemma tryMatch_pairs_when_two_open_witness :
  exists A' B',
    A' ∈ queue demo_invoked /\ B' ∈ queue demo_invoked /\
    rooms (tryMatch allOpen 4000%Z 255%N demo_invoked) !! uid 255%N =
      Some (mkRoom (q_ws A') (q_ws B')) /\
    length (queue (tryMatch allOpen 4000%Z 255%N demo_invoked)) + 2 =
      length (queue demo_invoked).
Proof.
  assert (He : eligible allOpen (queue demo_invoked) 0 1 demo_first demo_second).
  { rewrite demo_invoked_queue. by repeat split. }
  destruct (tryMatch_pairs_when_two_open allOpen 4000%Z 255%N demo_invoked
              0 1 demo_first demo_second (Nat.lt_0_1) He)
    as (A' & B' & HA & HB & _ & _ & Hr & Hl & _).
  exists A', B'. done.
Defined.

(** ** The timer callback *)

(** X8. After the timer callback every entry left in the queue has an open
    socket, and the entries left were already queued, in the same order. *)
Theorem onTick_leaves_open_entries rs now entropy s :
  Forall (fun e => isOpen (rs (q_ws e)) = true)
         (queue (step rs (EvTick now entropy) s)) /\
  queue (step rs (EvTick now entropy) s) `sublist_of` queue s.
Proof.
  simpl. unfold onTick.
  pose proof (tryMatch_queue_sublist rs now entropy (purge rs s)) as Hsub.
  rewrite purge_queue in Hsub. split.
  - apply Forall_forall. intros e He.
    pose proof (elem_of_sublist _ _ _ He Hsub) as Hf.
    by apply list_elem_of_filter in Hf as [Ho _].
  - etrans; [exact Hsub|]. apply sublist_filter.
Qed.

(** ** The connection callback *)

(** X9. In a reachable state the socket of a new connection is unknown to
    the server: it has no record, no queue entry and no room.  The
    callback registers it as ["idle"], without room and with the
    preferences [{any, any}], under a fresh identifier that is also the
    one sent in [hello]; the queue, the rooms and all other records are
    unchanged. *)
Theorem onConnection_registers_fresh rs entropy s :
  reachable s ->
  clients s !! nextSocket s = None /\
  ~ inPool (nextSocket s) s /\ ~ isMember (nextSocket s) s /\
  clients (step rs (EvConnection entropy) s) !! nextSocket s =
    Some (mkMeta (uid entropy) None "idle" (mkPrefs "any" "any")) /\
  (forall x, x <> nextSocket s ->
     clients (step rs (EvConnection entropy) s) !! x = clients s !! x) /\
  queue (step rs (EvConnection entropy) s) = queue s /\
  rooms (step rs (EvConnection entropy) s) = rooms s /\
  nextSocket (step rs (EvConnection entropy) s) = S (nextSocket s) /\
  sent (step rs (EvConnection entropy) s) =
    sent s ++ (if isOpen (rs (nextSocket s))
               then [(nextSocket s, msg_hello (uid entropy))] else []).
Proof.
  intros Hreach. pose proof (reachable_Inv s Hreach) as HI.
  assert (Hnew : clients s !! nextSocket s = None).
  { destruct (clients s !! nextSocket s) as [m|] eqn:Hc; [|done].
    pose proof (inv_fresh s HI _ _ Hc). lia. }
  split; [done|]. split; [|split].
  - intros (e & He & Hw).
    destruct (inv_queue s HI e He) as (_ & _ & m & Hc & _).
    rewrite Hw in Hc. by rewrite Hc in Hnew.
  - intros (r & room & Hr & Hw).
    destruct (inv_member s HI r room _ Hr Hw) as (m & Hc & _).
    by rewrite Hc in Hnew.
  - simpl. unfold onConnection, safeSend.
    destruct (isOpen (rs (nextSocket s))); simpl;
      rewrite ?app_nil_r, lookup_insert_eq;
      (repeat split; try done); intros x Hx; by rewrite lookup_insert_ne.
Qed.

Lemma onConnection_registers_fresh_witness :
  clients demo_chatting !! 2 = None /\
  clients (step allOpen (EvConnection 9%N) demo_chatting) !! 2 =
    Some (mkMeta (uid 9%N) None "idle" (mkPrefs "any" "any")) /\
  queue (step allOpen (EvConnection 9%N) demo_chatting) = queue demo_chatting /\
  rooms (step allOpen (EvConnection 9%N) demo_chatting) = rooms demo_chatting.
Proof.
  destruct (onConnection_registers_fresh allOpen 9%N demo_chatting
              demo_chatting_reachable)
    as (Hn & _ & _ & Hc & _ & Hq & Hr & _).
  done.
Defined.

(** ** Messages that are ignored *)


(** A registered client without room sends [chat]: nothing happens. *)
Example chat_without_room :
  step allOpen (EvMessage 0 (ReqChat (Some "hi")) 0%Z 0%N) demo_idle = demo_idle.
Proof. by vm_compute. Qed.

(** ** The second invariant *)

Lemma Snapshot_init : Snapshot init.
Proof.
  split; simpl.
  - intros e H. by apply elem_of_nil in H.
  - intros w m rid H. by rewrite lookup_empty in H.
  - intros rid room H. by rewrite lookup_empty in H.
  - intros w m H. by rewrite lookup_empty in H.
Qed.

Lemma Snapshot_ext s s' :
  queue s = queue s' -> rooms s = rooms s' -> clients s = clients s' ->
  Snapshot s -> Snapshot s'.
Proof.
  destruct s, s'; simpl; intros -> -> -> [H1 H2 H3 H4]. by split.
Qed.

Lemma Snapshot_safeSend rs w p s : Snapshot s -> Snapshot (safeSend rs w p s).
Proof.
  apply Snapshot_ext; unfold safeSend; by destruct (isOpen (rs w)).
Qed.

Lemma Snapshot_sublist q s :
  q `sublist_of` queue s -> Snapshot s -> Snapshot (set_queue q s).
Proof.
  intros Hsub [H1 H2 H3 H4]. split; simpl; try done.
  intros e He. apply H1. eapply elem_of_sublist; eauto.
Qed.

Lemma Snapshot_removeFromQueue w s :
  Snapshot s -> Snapshot (removeFromQueue w s).
Proof.
  intros H. rewrite removeFromQueue_fields.
  apply Snapshot_sublist; [apply removeFromQueue_sublist|done].
Qed.

Lemma Snapshot_delete_room rid s :
  Snapshot s -> Snapshot (set_rooms (delete rid (rooms s)) s).
Proof.
  intros [H1 H2 H3 H4]. split; simpl; try done.
  intros r room Hr. apply lookup_delete_Some in Hr as [_ Hr]. eauto.
Qed.

(** A change of a record that keeps its identifier and its preferences and
    installs no room reference other than one made by [uid]. *)
Lemma Snapshot_mutate f x s :
  (forall m, prefs (f m) = prefs m) ->
  (forall m, meta_id (f m) = meta_id m) ->
  (forall m rid, roomId (f m) = Some rid ->
     roomId m = Some rid \/ String.length rid = 16) ->
  Snapshot s -> Snapshot (mutate f x s).
Proof.
  intros Hp Hi Hr [H1 H2 H3 H4]. split; simpl; try done.
  - intros e He. destruct (H1 e He) as (m & Hc & Hm).
    destruct (decide (x = q_ws e)) as [->|Hne].
    + exists (f m). by rewrite lookup_alter_eq, Hc, Hp.
    + exists m. by rewrite lookup_alter_ne.
  - intros w m rid Hc Hid.
    apply lookup_alter_Some in Hc as [(-> & m' & Hc & ->)|[_ Hc]]; [|eauto].
    destruct (Hr m' rid Hid); eauto.
  - intros w m Hc.
    apply lookup_alter_Some in Hc as [(-> & m' & Hc & ->)|[_ Hc]]; [|eauto].
    rewrite Hi. eauto.
Qed.

Lemma Snapshot_reset x s : Snapshot s -> Snapshot (mutate reset x s).
Proof. by apply Snapshot_mutate. Qed.

Lemma Snapshot_enter entropy x s :
  Snapshot s -> Snapshot (mutate (enter (uid entropy)) x s).
Proof.
  apply Snapshot_mutate; [done..|].
  intros m rid [= <-]. right. apply uid_length.
Qed.

Lemma Snapshot_leaveRoom rs w s : Snapshot s -> Snapshot (leaveRoom rs w s).
Proof.
  intros H.
  destruct (leaveRoom_case rs w s) as [|? ? ? ? ? ?|m rid room ? ? ? ?].
  - done.
  - by apply Snapshot_reset.
  - apply Snapshot_reset.
    destruct (isOpen (rs (partner room w))) eqn:Ho;
      [|by apply Snapshot_delete_room].
    apply (Snapshot_ext
             (set_rooms (delete rid (rooms s))
                (mutate reset (partner room w) s)));
      [unfold safeSend; by rewrite Ho..|].
    by apply (Snapshot_delete_room rid (mutate reset (partner room w) s)),
      Snapshot_reset.
Qed.

Lemma Snapshot_tryMatch rs now entropy s :
  Snapshot s -> Snapshot (tryMatch rs now entropy s).
Proof.
  intros H. destruct (tryMatch_case rs now entropy s) as [|b A B _ _ _ _];
    [done|].
  assert (Hq : Snapshot (set_queue (queue (paired (uid entropy) (best_i b)
                                             (best_j b) A B s)) s)).
  { apply Snapshot_sublist; [|done]. simpl. etrans; apply splice_sublist. }
  assert (Hm : Snapshot (mutate (enter (uid entropy)) (q_ws B)
                 (mutate (enter (uid entropy)) (q_ws A)
                    (set_queue (queue (paired (uid entropy) (best_i b)
                                         (best_j b) A B s)) s)))).
  { by do 2 apply Snapshot_enter. }
  destruct Hm as [H1 H2 H3 H4]. split; simpl in *; try done.
  intros rid room Hr.
  apply lookup_insert_Some in Hr as [[<- _]|[_ Hr]]; [apply uid_length|eauto].
Qed.

Lemma enqueue_clients rs w g l now s :
  clients (enqueue rs w g l now s) =
  alter (search (mkPrefs (or_default g "any") (or_default l "any"))) w
        (clients (leaveRoom rs w s)).
Proof.
  unfold enqueue, safeSend. destruct (isOpen (rs w)); simpl;
    by rewrite removeFromQueue_fields.
Qed.

Lemma enqueue_queue rs w g l now s :
  queue (enqueue rs w g l now s) =
  queue (removeFromQueue w (leaveRoom rs w s)) ++
  [mkEntry w (mkPrefs (or_default g "any") (or_default l "any")) now].
Proof. unfold enqueue, safeSend. by destruct (isOpen (rs w)). Qed.

Lemma Snapshot_enqueue rs w g l now s :
  Inv s -> is_Some (clients s !! w) -> Snapshot s ->
  Snapshot (enqueue rs w g l now s).
Proof.
  intros HI Hreg HS.
  set (p := mkPrefs (or_default g "any") (or_default l "any")).
  pose proof (Inv_leaveRoom rs w s HI) as HI1.
  pose proof (Snapshot_leaveRoom rs w s HS) as HS1.
  pose proof (Snapshot_removeFromQueue w _ HS1) as [H1 H2 H3 H4].
  assert (Hp : ~ inPool w (removeFromQueue w (leaveRoom rs w s))).
  { apply removeFromQueue_gone, (inv_nodup _ HI1). }
  apply (leaveRoom_registered rs w s w) in Hreg as [m Hm].
  assert (Hrc : rooms (enqueue rs w g l now s) = rooms (leaveRoom rs w s)).
  { unfold enqueue, safeSend. destruct (isOpen (rs w)); simpl;
      by rewrite removeFromQueue_fields. }
  rewrite removeFromQueue_fields in H2, H3, H4. simpl in H2, H3, H4.
  split.
  - rewrite enqueue_queue, enqueue_clients. intros e He.
    apply elem_of_app in He as [He|He].
    + destruct (H1 e He) as (m' & Hc & Hm').
      rewrite removeFromQueue_fields in Hc. simpl in Hc.
      exists m'. split; [|done]. rewrite lookup_alter_ne; [done|].
      intros ->. apply Hp. by exists e.
    + apply list_elem_of_singleton in He. subst e. simpl.
      exists (search p m). by rewrite lookup_alter_eq, Hm.
  - rewrite enqueue_clients. intros x mx rid Hc Hid.
    apply lookup_alter_Some in Hc as [(-> & m' & Hc & ->)|[_ Hc]]; eauto.
  - rewrite Hrc. eauto.
  - rewrite enqueue_clients. intros x mx Hc.
    apply lookup_alter_Some in Hc as [(-> & m' & Hc & ->)|[_ Hc]]; eauto.
    simpl. eauto.
Qed.

Lemma Snapshot_step rs ev s : Inv s -> Snapshot s -> Snapshot (step rs ev s).
Proof.
  intros HI HS. destruct ev as [e|w req now e|w|now e]; simpl.
  - unfold onConnection. apply Snapshot_safeSend.
    assert (Hnew : clients s !! nextSocket s = None).
    { destruct (clients s !! nextSocket s) as [m|] eqn:Hc; [|done].
      pose proof (inv_fresh s HI _ _ Hc). lia. }
    destruct HS as [H1 H2 H3 H4]. split; simpl; try done.
    + intros x Hx. destruct (H1 x Hx) as (m & Hc & Hm). exists m.
      split; [|done]. rewrite lookup_insert_ne; [done|].
      intros Heq. rewrite Heq in Hnew. by rewrite Hc in Hnew.
    + intros w m rid Hc. apply lookup_insert_Some in Hc as [[_ <-]|[_ Hc]];
        [done|eauto].
    + intros w m Hc. apply lookup_insert_Some in Hc as [[_ <-]|[_ Hc]];
        [apply uid_length|eauto].
  - unfold onMessage.
    destruct (clients s !! w) as [m|] eqn:Hc; [|by destruct req].
    destruct req as [|g l| |text| |]; try done.
    + unfold onFind. apply Snapshot_tryMatch, Snapshot_enqueue; [done| |done].
      by rewrite Hc.
    + unfold onCancel. apply Snapshot_safeSend.
      apply Snapshot_mutate; [done|done|by left|].
      by apply Snapshot_removeFromQueue.
    + unfold onChat. rewrite Hc.
      destruct (negb (truthy (roomId m))); [done|].
      destruct (rooms s !! default "" (roomId m)) as [room|]; [|done].
      destruct (negb (isOpen (rs (partner room w)))).
      * by apply Snapshot_leaveRoom, Snapshot_safeSend.
      * by apply Snapshot_safeSend.
    + unfold onLeave. apply Snapshot_safeSend.
      apply Snapshot_mutate; [done|done|by left|].
      by apply Snapshot_removeFromQueue, Snapshot_leaveRoom.
  - unfold onClose.
    pose proof (Inv_removeFromQueue w s HI) as HI1.
    assert (Hp : ~ inPool w (leaveRoom rs w (removeFromQueue w s))).
    { unfold inPool. rewrite leaveRoom_queue.
      apply removeFromQueue_gone, (inv_nodup s HI). }
    destruct (Snapshot_leaveRoom rs w _ (Snapshot_removeFromQueue w s HS))
      as [H1 H2 H3 H4].
    split; simpl; try done.
    + intros x Hx. destruct (H1 x Hx) as (m & Hc & Hm). exists m.
      split; [|done]. rewrite lookup_delete_ne; [done|].
      intros ->. apply Hp. by exists x.
    + intros x m rid Hc. apply lookup_delete_Some in Hc as [_ Hc]. eauto.
    + intros x m Hc. apply lookup_delete_Some in Hc as [_ Hc]. eauto.
  - unfold onTick. apply Snapshot_tryMatch.
    assert (E : purge rs s = set_queue (queue (purge rs s)) s) by done.
    rewrite E, purge_queue. apply Snapshot_sublist; [|done].
    apply sublist_filter.
Qed.

Lemma reachable_Snapshot s : reachable s -> Snapshot s.
Proof.
  induction 1 as [|rs ev s Hr IH]; [apply Snapshot_init|].
  apply Snapshot_step; [by apply reachable_Inv|done].
Qed.

Lemma length16_nonempty (r : string) : String.length r = 16 -> r <> "".
Proof. by intros H ->. Qed.

Lemma falsy_roomId_None s w m :
  Snapshot s -> clients s !! w = Some m -> truthy (roomId m) = false ->
  roomId m = None.
Proof.
  intros HS Hc Hf. destruct (roomId m) as [rid|] eqn:Hid; [|done].
  pose proof (snap_roomId s HS w m rid Hc Hid) as Hlen.
  rewrite (truthy_Some rid (length16_nonempty rid Hlen)) in Hf. discriminate.
Qed.

(** ** Invariants of the tables *)

(** X11. In every reachable state a room has two different members, both
    registered with a record that points to this room, neither of them
    queued, and no connection is a member of two rooms. *)
Theorem rooms_well_formed s r room :
  reachable s -> rooms s !! r = Some room ->
  room_a room <> room_b room /\
  (exists ma mb,
     clients s !! room_a room = Some ma /\ roomId ma = Some r /\
     clients s !! room_b room = Some mb /\ roomId mb = Some r) /\
  ~ inPool (room_a room) s /\ ~ inPool (room_b room) s /\
  (forall r' room' w,
     rooms s !! r' = Some room' ->
     w = room_a room \/ w = room_b room ->
     w = room_a room' \/ w = room_b room' -> r' = r).
Proof.
  intros Hreach Hr. pose proof (reachable_Inv s Hreach) as HI.
  split; [by apply (inv_distinct s HI r)|]. split; [|split; [|split]].
  - destruct (inv_member s HI r room (room_a room) Hr) as (ma & Ha & Hia);
      [by left|].
    destruct (inv_member s HI r room (room_b room) Hr) as (mb & Hb & Hib);
      [by right|].
    by exists ma, mb.
  - intros Hp. apply (inv_excl s HI _ Hp). exists r, room. split; [done|by left].
  - intros Hp. apply (inv_excl s HI _ Hp). exists r, room. split; [done|by right].
  - intros r' room' w Hr' Hw Hw'.
    destruct (inv_member s HI r room w Hr Hw) as (m & Hc & Hid).
    pose proof (member_roomId w r' room' m s HI Hr' Hw' Hc). congruence.
Qed.

Lemma rooms_well_formed_witness :
  room_a (mkRoom 0 1) <> room_b (mkRoom 0 1) /\
  ~ inPool (room_a (mkRoom 0 1)) demo_chatting /\
  ~ inPool (room_b (mkRoom 0 1)) demo_chatting.
Proof.
  assert (Hr : rooms demo_chatting !! uid 255%N = Some (mkRoom 0 1)).
  { vm_compute. reflexivity. }
  destruct (rooms_well_formed demo_chatting _ _ demo_chatting_reachable Hr)
    as (Hd & _ & Ha & Hb & _).
  done.
Defined.

(** X12. In every reachable state no connection has two queue entries, and
    every entry belongs to a registered connection in state ["searching"]
    without room, whose current preferences are the ones stored in the
    entry; no preference field of an entry is empty. *)
Theorem queue_well_formed s :
  reachable s ->
  NoDup (q_ws <$> queue s) /\
  (forall e, e ∈ queue s ->
     exists m, clients s !! q_ws e = Some m /\
       state m = "searching" /\ roomId m = None /\ prefs m = q_prefs e /\
       gender (q_prefs e) <> "" /\ level (q_prefs e) <> "").
Proof.
  intros Hreach. pose proof (reachable_Inv s Hreach) as HI.
  pose proof (reachable_Snapshot s Hreach) as HS.
  split; [apply (inv_nodup s HI)|]. intros e He.
  destruct (inv_queue s HI e He) as (Hg & Hl & m & Hc & Hst & Hf).
  destruct (snap_prefs s HS e He) as (m' & Hc' & Hp).
  assert (m' = m) as -> by congruence.
  exists m. repeat split; try done. by eapply falsy_roomId_None.
Qed.

Lemma queue_well_formed_witness :
  NoDup (q_ws <$> queue demo_waiting) /\
  (forall e, e ∈ queue demo_waiting ->
     exists m, clients demo_waiting !! q_ws e = Some m /\
       state m = "searching" /\ roomId m = None /\ prefs m = q_prefs e /\
       gender (q_prefs e) <> "" /\ level (q_prefs e) <> "").
Proof. apply (queue_well_formed demo_waiting demo_waiting_reachable). Defined.

(** X13. In every reachable state the identifier of every registered
    connection, every room reference held by a record and every key of
    the room table is a string of 16 characters, as made by [uid]; in
    particular no record holds an empty room reference. *)
Theorem identifiers_have_16_characters s :
  reachable s ->
  (forall w m, clients s !! w = Some m ->
     String.length (meta_id m) = 16 /\
     (forall rid, roomId m = Some rid -> String.length rid = 16) /\
     roomId m <> Some "") /\
  (forall rid room, rooms s !! rid = Some room -> String.length rid = 16).
Proof.
  intros Hreach. pose proof (reachable_Snapshot s Hreach) as HS. split.
  - intros w m Hc. split; [by apply (snap_id s HS w)|].
    split; [intros rid; by apply (snap_roomId s HS w)|].
    intros Hid. by pose proof (snap_roomId s HS w m "" Hc Hid).
  - apply (snap_rooms s HS).
Qed.

Lemma identifiers_have_16_characters_witness :
  (forall w m, clients demo_chatting !! w = Some m ->
     String.length (meta_id m) = 16 /\
     (forall rid, roomId m = Some rid -> String.length rid = 16) /\
     roomId m <> Some "") /\
  (forall rid room, rooms demo_chatting !! rid = Some room ->
     String.length rid = 16).
Proof.
  apply (identifiers_have_16_characters demo_chatting demo_chatting_reachable).
Defined.

(** ** find *)

(** X14. After a [find] of a registered connection, in a reachable state,
    the record of the sender holds the requested preferences (a missing
    or empty field replaced by [any]) and the sender is either queued, in
    state ["searching"] and in no room, with an entry carrying these
    preferences and the time of the request, or it was paired at once: in
    state ["chat"], member of the room created under the fresh identifier
    and not queued. *)
Theorem onFind_outcome rs w g l now entropy s m :
  reachable s -> clients s !! w = Some m ->
  exists m',
    clients (step rs (EvMessage w (ReqFind g l) now entropy) s) !! w = Some m' /\
    prefs m' = mkPrefs (or_default g "any") (or_default l "any") /\
    ((state m' = "searching" /\ roomId m' = None /\
      mkEntry w (prefs m') now ∈
        queue (step rs (EvMessage w (ReqFind g l) now entropy) s) /\
      ~ isMember w (step rs (EvMessage w (ReqFind g l) now entropy) s)) \/
     (state m' = "chat" /\ roomId m' = Some (uid entropy) /\
      isMember w (step rs (EvMessage w (ReqFind g l) now entropy) s) /\
      ~ inPool w (step rs (EvMessage w (ReqFind g l) now entropy) s))).
Proof.
  intros Hreach Hc. pose proof (reachable_Inv s Hreach) as HI.
  assert (Hreg : is_Some (clients s !! w)) by (by rewrite Hc).
  rewrite step_find by done.
  set (p := mkPrefs (or_default g "any") (or_default l "any")).
  set (s5 := enqueue rs w g l now s).
  assert (HI5 : Inv s5) by by apply Inv_enqueue.
  assert (HS5 : Snapshot s5).
  { apply Snapshot_enqueue; [done..|]. by apply reachable_Snapshot. }
  assert (Hin : mkEntry w p now ∈ queue s5).
  { unfold s5. rewrite enqueue_queue. apply elem_of_app. right.
    apply list_elem_of_singleton. done. }
  destruct (inv_queue s5 HI5 _ Hin) as (_ & _ & m5 & Hc5 & Hst5 & Hf5).
  simpl in Hc5.
  assert (Hp5 : prefs m5 = p).
  { destruct (snap_prefs s5 HS5 _ Hin) as (m' & Hc' & Hp'). simpl in *.
    congruence. }
  pose proof (Inv_tryMatch rs now entropy s5 HI5) as HI'.
  destruct (tryMatch_case rs now entropy s5) as [|b A B _ _ Hlt He].
  - exists m5. split; [done|]. split; [done|]. left.
    split; [done|]. split; [by eapply falsy_roomId_None|].
    rewrite Hp5. split; [done|].
    apply (inv_excl s5 HI5). by exists (mkEntry w p now).
  - destruct He as (Hi & Hj & _).
    assert (HAB : q_ws A <> q_ws B).
    { eapply paired_distinct; eauto. apply (inv_nodup s5 HI5). }
    destruct (decide (w = q_ws A \/ w = q_ws B)) as [Hw|Hw].
    + exists (enter (uid entropy) m5). simpl. split.
      { destruct Hw as [-> | ->].
        - by rewrite lookup_alter_ne, lookup_alter_eq, Hc5.
        - by rewrite lookup_alter_eq, lookup_alter_ne, Hc5. }
      split; [done|]. right. split; [done|]. split; [done|].
      assert (Hm : isMember w (paired (uid entropy) (best_i b) (best_j b) A B s5)).
      { exists (uid entropy), (mkRoom (q_ws A) (q_ws B)).
        split; [apply lookup_insert_eq|done]. }
      split; [done|]. intros Hp. by apply (inv_excl _ HI' w Hp).
    + exists m5. simpl. split.
      { rewrite !lookup_alter_ne; [done|..]; intros <-; apply Hw; auto. }
      split; [done|]. left. split; [done|].
      split; [by eapply falsy_roomId_None|].
      rewrite Hp5.
      assert (Hin' : mkEntry w p now ∈
                splice (best_i b) (splice (best_j b) (queue s5))).
      { apply (splice_keeps _ _ A).
        - unfold splice. by rewrite list_lookup_delete_lt.
        - apply (splice_keeps _ _ B); [done..|]. intros <-. apply Hw. by right.
        - intros <-. apply Hw. by left. }
      split; [done|].
      apply (inv_excl _ HI'). by exists (mkEntry w p now).
Qed.

Lemma onFind_outcome_witness :
  exists m',
    clients (step allOpen (EvMessage 1 (ReqFind (Some "female") None) 4000%Z 255%N)
               demo_waiting) !! 1 = Some m' /\
    prefs m' = mkPrefs "female" "any".
Proof.
  assert (Hc : clients demo_waiting !! 1 =
            Some (mkMeta (uid 77%N) None "idle" (mkPrefs "any" "any"))).
  { vm_compute. reflexivity. }
  destruct (onFind_outcome allOpen 1 (Some "female") None 4000%Z 255%N
              demo_waiting _ demo_waiting_reachable Hc)
    as (m' & Hc' & Hp & _).
  exists m'. done.
Defined.

(** X15. When exactly one connection is waiting, with an open socket, and
    another registered connection with an open socket sends [find], the
    two are paired in the same callback: the queue is empty, the new room
    holds the waiting socket and the sender, both records are in state
    ["chat"] with the new room identifier, and the sender receives
    [searching] before both receive [matched] with that identifier. *)
Theorem find_pairs_with_the_waiting_one rs w g l now entropy s m e1 :
  reachable s -> clients s !! w = Some m ->
  queue s = [e1] -> q_ws e1 <> w ->
  isOpen (rs (q_ws e1)) = true -> isOpen (rs w) = true ->
  queue (step rs (EvMessage w (ReqFind g l) now entropy) s) = [] /\
  rooms (step rs (EvMessage w (ReqFind g l) now entropy) s) !! uid entropy =
    Some (mkRoom (q_ws e1) w) /\
  (exists m1 mw,
     clients (step rs (EvMessage w (ReqFind g l) now entropy) s) !! q_ws e1
       = Some m1 /\
     state m1 = "chat" /\ roomId m1 = Some (uid entropy) /\
     clients (step rs (EvMessage w (ReqFind g l) now entropy) s) !! w
       = Some mw /\
     state mw = "chat" /\ roomId mw = Some (uid entropy)) /\
  sent (step rs (EvMessage w (ReqFind g l) now entropy) s) =
    sent (leaveRoom rs w s) ++
    [(w, msg_searching);
     (q_ws e1, msg_matched (uid entropy) "Partner" "Online");
     (w, msg_matched (uid entropy) "Partner" "Online")].
Proof.
  intros Hreach Hc Hq Hne Ho1 How.
  pose proof (reachable_Inv s Hreach) as HI.
  assert (Hreg : is_Some (clients s !! w)) by (by rewrite Hc).
  rewrite step_find by done.
  set (p := mkPrefs (or_default g "any") (or_default l "any")).
  set (s5 := enqueue rs w g l now s).
  assert (HI5 : Inv s5) by by apply Inv_enqueue.
  assert (Hq5 : queue s5 = [e1; mkEntry w p now]).
  { unfold s5. rewrite enqueue_queue, removeFromQueue_absent.
    - by rewrite leaveRoom_queue, Hq.
    - intros (e & He & Hw). rewrite leaveRoom_queue, Hq in He.
      apply list_elem_of_singleton in He. congruence. }
  assert (Hs5 : sent s5 = sent (leaveRoom rs w s) ++ [(w, msg_searching)]).
  { unfold s5, enqueue, safeSend. rewrite How. simpl.
    by rewrite removeFromQueue_sent. }
  rewrite (tryMatch_two rs now entropy s5 e1 (mkEntry w p now) Hq5 Ho1 How).
  simpl. split; [by rewrite Hq5|]. split; [apply lookup_insert_eq|].
  split.
  - destruct (inv_queue s5 HI5 e1) as (_ & _ & m1 & Hc1 & _);
      [rewrite Hq5; by left|].
    destruct (inv_queue s5 HI5 (mkEntry w p now)) as (_ & _ & mw & Hcw & _);
      [rewrite Hq5; right; by left|].
    simpl in Hcw.
    exists (enter (uid entropy) m1), (enter (uid entropy) mw).
    rewrite lookup_alter_ne, !lookup_alter_eq, lookup_alter_ne by done.
    by rewrite Hc1, Hcw.
  - by rewrite Hs5, <- app_assoc.
Qed.

Lemma find_pairs_with_the_waiting_one_witness :
  queue demo_chatting = [] /\
  rooms demo_chatting !! uid 255%N = Some (mkRoom 0 1) /\
  sent demo_chatting =
    sent (leaveRoom allOpen 1 demo_waiting) ++
    [(1, msg_searching);
     (0, msg_matched (uid 255%N) "Partner" "Online");
     (1, msg_matched (uid 255%N) "Partner" "Online")].
Proof.
  assert (Hc : clients demo_waiting !! 1 =
            Some (mkMeta (uid 77%N) None "idle" (mkPrefs "any" "any"))).
  { vm_compute. reflexivity. }
  assert (Hq : queue demo_waiting = [demo_first]) by (vm_compute; reflexivity).
  destruct (find_pairs_with_the_waiting_one allOpen 1 None None 2000%Z 255%N
              demo_waiting _ demo_first demo_waiting_reachable Hc Hq
              (Nat.neq_0_succ 0) eq_refl eq_refl)
    as (Hqe & Hr & _ & Hs).
  done.
Defined.

(** ** leave, close and cancel *)

(** [leaveRoom] changes records only by resetting them. *)
Lemma leaveRoom_record rs w s x mx :
  clients s !! x = Some mx ->
  clients (leaveRoom rs w s) !! x = Some mx \/
  clients (leaveRoom rs w s) !! x = Some (reset mx).
Proof.
  intros Hx.
  destruct (leaveRoom_case rs w s) as [|? ? ? ? ? ?|m rid room ? ? ? ?];
    simpl; [by left| |].
  - destruct (decide (w = x)) as [->|Hne].
    + right. by rewrite lookup_alter_eq, Hx.
    + left. by rewrite lookup_alter_ne.
  - assert (Hs1 : clients (if isOpen (rs (partner room w))
                           then safeSend rs (partner room w) msg_partner_left
                                  (mutate reset (partner room w) s)
                           else s) !! x = Some mx \/
                  clients (if isOpen (rs (partner room w))
                           then safeSend rs (partner room w) msg_partner_left
                                  (mutate reset (partner room w) s)
                           else s) !! x = Some (reset mx)).
    { unfold safeSend. destruct (isOpen (rs (partner room w))); simpl; [|by left].
      destruct (decide (partner room w = x)) as [->|Hne].
      - right. by rewrite lookup_alter_eq, Hx.
      - left. by rewrite lookup_alter_ne. }
    destruct (decide (w = x)) as [->|Hne].
    + right. rewrite lookup_alter_eq. by destruct Hs1 as [-> | ->].
    + by rewrite lookup_alter_ne.
Qed.

(** The record of the leaving socket after [leaveRoom], in a reachable
    state: same identifier and preferences, no room. *)
Lemma leaveRoom_own_record rs w s m :
  reachable s -> clients s !! w = Some m ->
  exists m1, clients (leaveRoom rs w s) !! w = Some m1 /\
    meta_id m1 = meta_id m /\ prefs m1 = prefs m /\ roomId m1 = None.
Proof.
  intros Hreach Hc.
  pose proof (Snapshot_leaveRoom rs w s (reachable_Snapshot s Hreach)) as HS1.
  destruct (leaveRoom_record rs w s w m Hc) as [H1|H1].
  - exists m. split; [done|]. split; [done|]. split; [done|].
    eapply falsy_roomId_None; [done..|]. by eapply leaveRoom_roomId.
  - by exists (reset m).
Qed.

Lemma removeFromQueue_middle w s l1 e l2 :
  queue s = l1 ++ e :: l2 -> q_ws e = w ->
  (forall x, x ∈ l1 -> q_ws x <> w) ->
  removeFromQueue w s = set_queue (l1 ++ l2) s.
Proof.
  intros Hq He Hl1. unfold removeFromQueue. rewrite Hq.
  rewrite (findIndex_app_first _ l1 e l2).
  - unfold splice. by rewrite delete_middle.
  - intros x Hx. apply bool_decide_eq_false. by apply Hl1.
  - by apply bool_decide_eq_true.
Qed.

(** X16. After a [leave] of a registered connection, in a reachable state,
    its record is ["idle"] without room, with the identifier and the
    preferences it had; it is neither queued nor member of a room; the
    entries of other connections stay queued; and [left] is the last
    message, sent after the notification of a partner. *)
Theorem onLeave_resets rs w now entropy s m :
  reachable s -> clients s !! w = Some m ->
  clients (step rs (EvMessage w ReqLeave now entropy) s) !! w =
    Some (mkMeta (meta_id m) None "idle" (prefs m)) /\
  ~ inPool w (step rs (EvMessage w ReqLeave now entropy) s) /\
  ~ isMember w (step rs (EvMessage w ReqLeave now entropy) s) /\
  (forall e, e ∈ queue s -> q_ws e <> w ->
     e ∈ queue (step rs (EvMessage w ReqLeave now entropy) s)) /\
  sent (step rs (EvMessage w ReqLeave now entropy) s) =
    sent (leaveRoom rs w s) ++
    (if isOpen (rs w) then [(w, msg_left)] else []).
Proof.
  intros Hreach Hc. pose proof (reachable_Inv s Hreach) as HI.
  pose proof (Inv_leaveRoom rs w s HI) as HI1.
  destruct (leaveRoom_own_record rs w s m Hreach Hc)
    as (m1 & Hc1 & Hid & Hp & Hrid).
  simpl. unfold onMessage. rewrite Hc. unfold onLeave, safeSend.
  assert (Hgone : ~ inPool w (removeFromQueue w (leaveRoom rs w s))).
  { apply removeFromQueue_gone, (inv_nodup _ HI1). }
  assert (Hkeep : forall e, e ∈ queue s -> q_ws e <> w ->
            e ∈ queue (removeFromQueue w (leaveRoom rs w s))).
  { intros e He Hne. apply removeFromQueue_keeps; [|done].
    by rewrite leaveRoom_queue. }
  assert (Hmem : ~ isMember w (removeFromQueue w (leaveRoom rs w s))).
  { unfold isMember. rewrite removeFromQueue_fields. simpl.
    by apply leaveRoom_notMember. }
  assert (Hrec : alter (set_state "idle") w
                   (clients (removeFromQueue w (leaveRoom rs w s))) !! w =
                 Some (mkMeta (meta_id m) None "idle" (prefs m))).
  { rewrite lookup_alter_eq, removeFromQueue_fields. simpl. rewrite Hc1.
    simpl. unfold set_state. by rewrite Hid, Hp, Hrid. }
  destruct (isOpen (rs w)); simpl; rewrite ?app_nil_r, removeFromQueue_sent;
    done.
Qed.

Lemma onLeave_resets_witness :
  clients (step allOpen (EvMessage 0 ReqLeave 3000%Z 0%N) demo_chatting) !! 0 =
    Some (mkMeta (uid 5%N) None "idle" (mkPrefs "any" "any")) /\
  sent (step allOpen (EvMessage 0 ReqLeave 3000%Z 0%N) demo_chatting) =
    sent (leaveRoom allOpen 0 demo_chatting) ++ [(0, msg_left)].
Proof.
  assert (Hc : clients demo_chatting !! 0 =
            Some (mkMeta (uid 5%N) (Some (uid 255%N)) "chat" (mkPrefs "any" "any"))).
  { vm_compute. reflexivity. }
  destruct (onLeave_resets allOpen 0 3000%Z 0%N demo_chatting _
              demo_chatting_reachable Hc) as (Hr & _ & _ & _ & Hs).
  done.
Defined.

(** X17. After the close callback of a connection, in a reachable state,
    nothing refers to it any more: it has no record, no queue entry and is
    member of no room; the other connections stay registered and queued;
    and a second close callback for it changes nothing. *)
Theorem onClose_cleans_up rs w s :
  reachable s ->
  clients (step rs (EvClose w) s) !! w = None /\
  ~ inPool w (step rs (EvClose w) s) /\
  ~ isMember w (step rs (EvClose w) s) /\
  (forall x, x <> w ->
     is_Some (clients (step rs (EvClose w) s) !! x) <-> is_Some (clients s !! x)) /\
  (forall e, e ∈ queue s -> q_ws e <> w -> e ∈ queue (step rs (EvClose w) s)) /\
  (forall rs', step rs' (EvClose w) (step rs (EvClose w) s) =
               step rs (EvClose w) s).
Proof.
  intros Hreach. pose proof (reachable_Inv s Hreach) as HI.
  pose proof (Inv_removeFromQueue w s HI) as HI1.
  set (s2 := leaveRoom rs w (removeFromQueue w s)).
  assert (E : step rs (EvClose w) s = set_clients (delete w (clients s2)) s2)
    by done.
  rewrite E. clear E.
  assert (Hp : ~ inPool w s2).
  { unfold inPool, s2. rewrite leaveRoom_queue.
    apply removeFromQueue_gone, (inv_nodup s HI). }
  assert (Hm : ~ isMember w s2) by by apply leaveRoom_notMember.
  split; [simpl; apply lookup_delete_eq|].
  split; [done|]. split; [done|]. split; [|split].
  - intros x Hne. simpl. rewrite lookup_delete_ne by done.
    unfold s2. rewrite leaveRoom_registered.
    by rewrite removeFromQueue_fields.
  - intros e He Hne. simpl. unfold s2. rewrite leaveRoom_queue.
    by apply removeFromQueue_keeps.
  - intros rs'.
    set (s3 := set_clients (delete w (clients s2)) s2).
    assert (Hp3 : ~ inPool w s3) by done.
    assert (Hno : clients s3 !! w = None) by apply lookup_delete_eq.
    simpl. unfold onClose.
    rewrite (removeFromQueue_absent w s3 Hp3).
    rewrite (leaveRoom_noop rs' w s3)
      by (intros m Hc; by rewrite Hno in Hc).
    rewrite (delete_id _ _ Hno). by destruct s2.
Qed.

Lemma onClose_cleans_up_witness :
  clients (step allOpen (EvClose 0) demo_chatting) !! 0 = None /\
  ~ inPool 0 (step allOpen (EvClose 0) demo_chatting) /\
  ~ isMember 0 (step allOpen (EvClose 0) demo_chatting).
Proof.
  destruct (onClose_cleans_up allOpen 0 demo_chatting demo_chatting_reachable)
    as (Hc & Hp & Hm & _).
  done.
Defined.

(** X18. A [cancel] of a queued connection, in a reachable state, takes its
    one entry out of the queue and keeps the others in order, sets its
    state to ["idle"] (it has no room), leaves the room table alone and
    sends [canceled]. *)
Theorem onCancel_dequeues rs w now entropy s m :
  reachable s -> clients s !! w = Some m -> inPool w s ->
  exists l1 e l2,
    queue s = l1 ++ e :: l2 /\ q_ws e = w /\
    queue (step rs (EvMessage w ReqCancel now entropy) s) = l1 ++ l2 /\
    ~ inPool w (step rs (EvMessage w ReqCancel now entropy) s) /\
    clients (step rs (EvMessage w ReqCancel now entropy) s) !! w =
      Some (mkMeta (meta_id m) None "idle" (prefs m)) /\
    rooms (step rs (EvMessage w ReqCancel now entropy) s) = rooms s /\
    sent (step rs (EvMessage w ReqCancel now entropy) s) =
      sent s ++ (if isOpen (rs w) then [(w, msg_canceled)] else []).
Proof.
  intros Hreach Hc (e & He & Hw). pose proof (reachable_Inv s Hreach) as HI.
  pose proof (reachable_Snapshot s Hreach) as HS.
  pose proof (inv_nodup s HI) as Hnd.
  apply list_elem_of_split in He as (l1 & l2 & Hq).
  assert (Hl1 : forall x, x ∈ l1 -> q_ws x <> w).
  { intros x Hx Hxw. rewrite Hq, fmap_app in Hnd.
    apply NoDup_app in Hnd as (_ & Hdisj & _).
    apply (Hdisj w); [rewrite <- Hxw; by apply list_elem_of_fmap_2|].
    rewrite fmap_cons, Hw. by left. }
  assert (Hrid : roomId m = None).
  { destruct (inv_queue s HI e) as (_ & _ & m' & Hc' & _ & Hf).
    { rewrite Hq. apply elem_of_app. right. by left. }
    rewrite Hw in Hc'. assert (m' = m) as -> by congruence.
    by eapply falsy_roomId_None. }
  exists l1, e, l2. split; [done|]. split; [done|].
  simpl. unfold onMessage. rewrite Hc. unfold onCancel.
  pose proof (removeFromQueue_gone w s Hnd) as Hgone.
  rewrite (removeFromQueue_middle w s l1 e l2 Hq Hw Hl1) in *.
  unfold safeSend.
  assert (Hrec : alter (set_state "idle") w (clients s) !! w =
                 Some (mkMeta (meta_id m) None "idle" (prefs m))).
  { rewrite lookup_alter_eq, Hc. simpl. unfold set_state. by rewrite Hrid. }
  destruct (isOpen (rs w)); simpl; rewrite ?app_nil_r; done.
Qed.

Lemma onCancel_dequeues_witness :
  exists l1 e l2,
    queue demo_waiting = l1 ++ e :: l2 /\ q_ws e = 0 /\
    queue (step allOpen (EvMessage 0 ReqCancel 1500%Z 0%N) demo_waiting) = l1 ++ l2 /\
    clients (step allOpen (EvMessage 0 ReqCancel 1500%Z 0%N) demo_waiting) !! 0 =
      Some (mkMeta (uid 5%N) None "idle" (mkPrefs "any" "any")).
Proof.
  assert (Hc : clients demo_waiting !! 0 =
            Some (mkMeta (uid 5%N) None "searching" (mkPrefs "any" "any"))).
  { vm_compute. reflexivity. }
  assert (Hp : inPool 0 demo_waiting).
  { exists demo_first. split; [|done].
    assert (Hq : queue demo_waiting = [demo_first]) by (vm_compute; reflexivity).
    rewrite Hq. by left. }
  destruct (onCancel_dequeues allOpen 0 1500%Z 0%N demo_waiting _
              demo_waiting_reachable Hc Hp)
    as (l1 & e & l2 & Hq & Hw & Hq' & _ & Hr & _).
  exists l1, e, l2. done.
Defined.

(** ** No two open sockets are left waiting *)

Lemma filter_length_sublist (P : Entry -> Prop) `{!forall e, Decision (P e)}
    (l k : list Entry) :
  l `sublist_of` k -> length (filter P l) <= length (filter P k).
Proof.
  intros Hsub. apply sublist_length.
  induction Hsub as [|x l k Hs IH|x l k Hs IH]; [done| |].
  - rewrite !filter_cons. destruct (decide (P x)); [by apply sublist_skip|done].
  - rewrite filter_cons. destruct (decide (P x)); [by apply sublist_cons|done].
Qed.

Lemma filter_length_splice (P : Entry -> Prop) `{!forall e, Decision (P e)}
    (l : list Entry) i x :
  l !! i = Some x -> P x ->
  length (filter P (splice i l)) + 1 = length (filter P l).
Proof.
  intros Hi HP. unfold splice. rewrite delete_take_drop.
  rewrite <- (take_drop_middle l i x Hi) at 3.
  rewrite !filter_app, filter_cons_True, !length_app by done. simpl. lia.
Qed.

(** Two entries passing a test sit at two positions [i < j]. *)
Lemma filter_two_positions (P : Entry -> Prop) `{!forall e, Decision (P e)}
    (l : list Entry) :
  2 <= length (filter P l) ->
  exists i j A B, i < j /\ l !! i = Some A /\ l !! j = Some B /\ P A /\ P B.
Proof.
  induction l as [|x l IH]; simpl; [lia|].
  rewrite filter_cons. destruct (decide (P x)) as [Hx|Hx]; simpl; intros Hlen.
  - destruct (filter P l) as [|y r] eqn:Hf; [simpl in Hlen; lia|].
    assert (Hy : y ∈ filter P l) by (rewrite Hf; by left).
    apply list_elem_of_filter in Hy as [HPy Hy].
    apply list_elem_of_lookup in Hy as [j Hj].
    exists 0, (S j), x, y. repeat split; try done. lia.
  - destruct (IH Hlen) as (i & j & A & B & Hij & Hi & Hj & HA & HB).
    exists (S i), (S j), A, B. repeat split; try done. lia.
Qed.

(** After [tryMatch] on a queue with at most two open sockets, at most one
    open socket is left in the queue. *)
Lemma tryMatch_leaves_one_open rs now entropy s :
  length (filter (fun e => isOpen (rs (q_ws e)) = true) (queue s)) <= 2 ->
  length (filter (fun e => isOpen (rs (q_ws e)) = true)
            (queue (tryMatch rs now entropy s))) <= 1.
Proof.
  intros Hle.
  destruct (tryMatch_case rs now entropy s) as [[Hlen|Hn]|b A B _ _ Hlt He].
  - etrans; [apply length_filter|]. lia.
  - destruct (decide (2 <= length (filter (fun e => isOpen (rs (q_ws e)) = true)
                                    (queue s)))) as [H2|]; [|lia].
    apply filter_two_positions in H2
      as (i & j & A & B & Hij & Hi & Hj & HA & HB).
    by destruct (scan_None rs now (queue s) i j A B Hn Hij).
  - destruct He as (Hi & Hj & HA & HB). simpl.
    assert (Hi' : splice (best_j b) (queue s) !! best_i b = Some A).
    { unfold splice. by rewrite list_lookup_delete_lt. }
    pose proof (filter_length_splice
                  (fun e => isOpen (rs (q_ws e)) = true) _ _ B Hj HB).
    pose proof (filter_length_splice
                  (fun e => isOpen (rs (q_ws e)) = true) _ _ A Hi' HA).
    lia.
Qed.

Lemma step_leaves_one_open rs ev s :
  length (filter (fun e => isOpen (rs (q_ws e)) = true) (queue s)) <= 1 ->
  length (filter (fun e => isOpen (rs (q_ws e)) = true)
            (queue (step rs ev s))) <= 1.
Proof.
  intros Hle.
  assert (Hsub : forall q', q' `sublist_of` queue s ->
            length (filter (fun e => isOpen (rs (q_ws e)) = true) q') <= 1).
  { intros q' Hq'. etrans; [by apply filter_length_sublist|done]. }
  destruct ev as [e|w req now e|w|now e]; simpl.
  - unfold onConnection, safeSend. by destruct (isOpen _).
  - unfold onMessage.
    destruct (clients s !! w) as [m|] eqn:Hc; [|by destruct req].
    destruct req as [|g l| |text| |]; try done.
    + unfold onFind. apply tryMatch_leaves_one_open.
      rewrite enqueue_queue, filter_app, length_app.
      assert (length (filter (fun e => isOpen (rs (q_ws e)) = true)
                        (queue (removeFromQueue w (leaveRoom rs w s)))) <= 1).
      { apply Hsub. etrans; [apply removeFromQueue_sublist|].
        by rewrite leaveRoom_queue. }
      assert (length (filter (fun e => isOpen (rs (q_ws e)) = true)
                [mkEntry w (mkPrefs (or_default g "any") (or_default l "any"))
                   now]) <= 1).
      { etrans; [apply length_filter|]. done. }
      lia.
    + unfold onCancel, safeSend. destruct (isOpen _); simpl;
        apply Hsub, removeFromQueue_sublist.
    + unfold onChat. rewrite Hc.
      destruct (negb (truthy (roomId m))); [done|].
      destruct (rooms s !! default "" (roomId m)) as [room|]; [|done].
      destruct (negb (isOpen (rs (partner room w)))).
      * rewrite leaveRoom_queue. unfold safeSend. by destruct (isOpen _).
      * unfold safeSend. by destruct (isOpen _).
    + unfold onLeave, safeSend. destruct (isOpen _); simpl; apply Hsub;
        (etrans; [apply removeFromQueue_sublist|]); by rewrite leaveRoom_queue.
  - unfold onClose. simpl. rewrite leaveRoom_queue.
    apply Hsub, removeFromQueue_sublist.
  - unfold onTick. apply tryMatch_leaves_one_open.
    rewrite purge_queue.
    etrans; [apply filter_length_sublist, sublist_filter|lia].
Qed.

(** X19. In an environment where a queued socket never opens again, the
    queue never holds two entries with an open socket between callbacks:
    two connections that are both waiting and open are always paired. *)
Theorem at_most_one_open_waiting rs s :
  reachableUnder rs s ->
  length (filter (fun e => isOpen (rs (q_ws e)) = true) (queue s)) <= 1.
Proof.
  induction 1 as [rs|rs rs' ev s Hr IH Hmono]; [simpl; lia|].
  apply step_leaves_one_open. etrans; [|exact IH].
  clear IH Hr. induction (queue s) as [|x q IHq]; [done|].
  rewrite !filter_cons.
  assert (IHq' : length (filter (fun e => isOpen (rs' (q_ws e)) = true) q) <=
                 length (filter (fun e => isOpen (rs (q_ws e)) = true) q)).
  { apply IHq. intros e He. apply Hmono. by right. }
  destruct (decide (isOpen (rs' (q_ws x)) = true)) as [Hx|Hx].
  - rewrite decide_True by (apply Hmono; [by left|done]). simpl. lia.
  - destruct (decide (isOpen (rs (q_ws x)) = true)); simpl; lia.
Qed.

Lemma reachableUnder_same rs evs s :
  reachableUnder rs s ->
  reachableUnder rs (foldl (fun acc ev => step rs ev acc) s evs).
Proof.
  revert s. induction evs as [|ev evs IH]; intros s Hs; simpl; [done|].
  apply IH. by apply (under_step rs).
Qed.

Lemma at_most_one_open_waiting_witness :
  length (filter (fun e => isOpen (closingOnly 0 (q_ws e)) = true)
            (queue (step (closingOnly 0)
                      (EvMessage 1 (ReqFind None None) 2000%Z 255%N)
                      demo_waiting))) <= 1.
Proof.
  apply at_most_one_open_waiting.
  apply (under_step allOpen); [|done].
  apply (reachableUnder_same allOpen
           [EvConnection 5%N; EvConnection 77%N;
            EvMessage 0 (ReqFind None None) 1000%Z 1%N] init).
  apply under_init.
Defined.
